(** * gitstatus: the libgit2 queries of [src/git.cc]

    A shallow embedding of [git.cc] and the properties of its query
    functions.  libgit2 is an external library: its entry points are the
    fields of the class [LibGit2], so every function of [git.cc] is embedded
    once, against any behaviour of the library.  The second half of the file
    gives one instance of the class, a commit graph with a revision walker,
    on which the count computed by [CountRange] is compared with graph
    reachability. *)

From Stdlib Require Import Ascii.
From stdpp Require Import gmap strings list fin_maps pretty.

Local Open Scope Z_scope.
Set Warnings "-clear-no-such-hyp".

(** ** Constants of the libgit2 headers *)

(** [git_error_code], include/git2/errors.h *)
Definition GIT_ENOTFOUND : Z := -3.
Definition GIT_EINVALIDSPEC : Z := -12.
Definition GIT_ITEROVER : Z := -31.

(** [git_error_t], the class of an error *)
Definition GIT_ERROR_INVALID : Z := 3.

(** [git_repository_state_t], include/git2/repository.h *)
Definition GIT_REPOSITORY_STATE_NONE : Z := 0.
Definition GIT_REPOSITORY_STATE_MERGE : Z := 1.
Definition GIT_REPOSITORY_STATE_REVERT : Z := 2.
Definition GIT_REPOSITORY_STATE_REVERT_SEQUENCE : Z := 3.
Definition GIT_REPOSITORY_STATE_CHERRYPICK : Z := 4.
Definition GIT_REPOSITORY_STATE_CHERRYPICK_SEQUENCE : Z := 5.
Definition GIT_REPOSITORY_STATE_BISECT : Z := 6.
Definition GIT_REPOSITORY_STATE_REBASE : Z := 7.
Definition GIT_REPOSITORY_STATE_REBASE_INTERACTIVE : Z := 8.
Definition GIT_REPOSITORY_STATE_REBASE_MERGE : Z := 9.
Definition GIT_REPOSITORY_STATE_APPLY_MAILBOX : Z := 10.
Definition GIT_REPOSITORY_STATE_APPLY_MAILBOX_OR_REBASE : Z := 11.

(** [git_reference_t], include/git2/types.h *)
Definition GIT_REFERENCE_INVALID : Z := 0.
Definition GIT_REFERENCE_DIRECT : Z := 1.
Definition GIT_REFERENCE_SYMBOLIC : Z := 2.
Definition GIT_REFERENCE_ALL : Z := 3.

(** [size_t] is 64 bits wide; [++res] wraps around. *)
Definition SIZE_WIDTH : Z := 64.
Definition size_t_incr (n : Z) : Z := (n + 1) mod 2 ^ SIZE_WIDTH.

(** ** Data of the library *)

(** [git_error]: the message may be a null pointer. *)
Record git_error := { message : option string; klass : Z }.

(** [git_buf]: libgit2 keeps [size] equal to the length of the
    NUL-terminated string at [ptr], so the string determines both. *)
Record git_buf := { ptr : string }.
Definition buf_size (b : git_buf) : nat := String.length (ptr b).

(** [struct Remote] of git.h, the result of [GetRemote]; [Remote{}] has two
    empty strings. *)
Record Remote := { name : string; branch : string }.
Definition Remote_empty : Remote := {| name := ""; branch := "" |}.

(** ** The library interface

    A call that can fail takes the library state (the last error of the
    thread, the objects behind the handles) and returns the status code
    with the value stored through its out-parameter, which the callers read
    only when the status is 0.  References and remotes are immutable once
    looked up: their accessors are functions of the object.  A revision
    walker is mutable: [git_revwalk] is the handle and the walker lives in
    the library state. *)
Class LibGit2 := {
  lib_state : Type;
  git_repository : Type;
  git_reference : Type;
  git_remote : Type;
  git_revwalk : Type;
  git_oid : Type;

  git_error_last : lib_state → option git_error;
  git_repository_state : git_repository → Z;

  git_revwalk_new : git_repository → lib_state → (Z * git_revwalk) * lib_state;
  git_revwalk_free : git_revwalk → lib_state → lib_state;
  git_revwalk_push_range : git_revwalk → string → lib_state → Z * lib_state;
  git_revwalk_next : git_revwalk → lib_state → (Z * git_oid) * lib_state;

  git_reference_lookup :
    git_repository → string → lib_state → (Z * git_reference) * lib_state;
  git_reference_resolve :
    git_reference → lib_state → (Z * git_reference) * lib_state;
  git_reference_free : git_reference → lib_state → lib_state;
  git_reference_type : git_reference → Z;
  git_reference_is_branch : git_reference → Z;
  git_reference_shorthand : git_reference → string;
  git_reference_name : git_reference → string;
  git_reference_symbolic_target : git_reference → option string;

  git_branch_upstream :
    git_reference → lib_state → (Z * git_reference) * lib_state;
  git_branch_name : git_reference → lib_state → (Z * string) * lib_state;
  git_branch_remote_name :
    git_repository → string → lib_state → (Z * git_buf) * lib_state;
  git_buf_free : git_buf → lib_state → lib_state;

  git_remote_lookup :
    git_repository → string → lib_state → (Z * git_remote) * lib_state;
  git_remote_url : git_remote → option string;
  git_remote_free : git_remote → lib_state → lib_state;
}.

(** ** Logging, exceptions and the state of a query *)

Inductive Severity := INFO | ERROR | FATAL.

Record LogLine := { severity : Severity; text : string }.

(** How a call of a function of [git.cc] ends: it returns, it throws
    [gitstatus::Exception], or the process is aborted. *)
Inductive Outcome (A : Type) :=
  | Returned (a : A)
  | Thrown
  | Aborted.
Arguments Returned {A} a.
Arguments Thrown {A}.
Arguments Aborted {A}.

Section Queries.
Context `{LibGit2}.

Record World := { logged : list LogLine; lib : lib_state }.

Definition M (A : Type) : Type := World → Outcome A * World.

#[local] Instance M_ret : MRet M := λ A a w, (Returned a, w).

#[local] Instance M_bind : MBind M := λ A B f m w,
  match m w with
  | (Returned a, w') => f a w'
  | (Thrown, w') => (Thrown, w')
  | (Aborted, w') => (Aborted, w')
  end.

Definition throw {A} : M A := λ w, (Thrown, w).
Definition abort {A} : M A := λ w, (Aborted, w).

(** A library call made from a query. *)
Definition call {A} (f : lib_state → A * lib_state) : M A := λ w,
  let '(a, l) := f (lib w) in (Returned a, {| logged := logged w; lib := l |}).

(** A look at the library state that does not change it. *)
Definition read {A} (f : lib_state → A) : M A := λ w, (Returned (f (lib w)), w).

(** A call that only releases an object. *)
Definition release (f : lib_state → lib_state) : M unit := λ w,
  (Returned tt, {| logged := logged w; lib := f (lib w) |}).

(** [ON_SCOPE_EXIT]: the guard runs when the scope is left by a return or
    by an exception. *)
Definition ON_SCOPE_EXIT {A} (guard : lib_state → lib_state) (body : M A) : M A :=
  λ w,
  match body w with
  | (Aborted, w') => (Aborted, w')
  | (o, w') => (o, {| logged := logged w'; lib := guard (lib w') |})
  end.

(** [LOG(severity) << ...]: one line made of the streamed pieces. *)
Definition LOG (s : Severity) (pieces : list string) : M unit := λ w,
  (Returned tt,
   {| logged := logged w ++ [{| severity := s; text := String.concat "" pieces |}];
      lib := lib w |}).

(** The world after a library call that left the state [l]. *)
Definition after (w : World) (l : lib_state) : World :=
  {| logged := logged w; lib := l |}.

(** [GitError()]: the message of the last error of the library. *)
Definition GitError_text (l : lib_state) : string :=
  match git_error_last l with
  | Some err =>
      match message err with
      | Some msg => msg
      | None => "unknown error"
      end
  | None => "unknown error"
  end.

Definition GitError : M string := read GitError_text.

(** Modelled from the spec: the macro [VERIFY] of check.h, which is not
    among the sources.  A failed verification is a fatal outcome: it is
    "logged with the failing operation and its diagnostic message, then
    raised as a hard failure".  The failing operation is the text of the
    condition, the diagnostic is what the call site streams after it. *)
Definition VERIFY (cond : bool) (operation : string) (diagnostic : M (list string))
  : M unit :=
  if cond then mret tt
  else pieces ← diagnostic; LOG ERROR (operation :: ": " :: pieces);; throw.

(** Modelled from the spec: the macro [CHECK] of check.h, which is not among
    the sources.  A failed check is an invariant violation: it is logged and
    the query does not continue. *)
Definition CHECK (cond : bool) (operation : string) : M unit :=
  if cond then mret tt else LOG FATAL [operation; ": "];; abort.

(** *** RepoState *)

(** The operation states of the library with the tag of each. *)
Definition state_tags : list (Z * string) :=
  [ (GIT_REPOSITORY_STATE_NONE, "");
    (GIT_REPOSITORY_STATE_MERGE, "merge");
    (GIT_REPOSITORY_STATE_REVERT, "revert");
    (GIT_REPOSITORY_STATE_REVERT_SEQUENCE, "revert-seq");
    (GIT_REPOSITORY_STATE_CHERRYPICK, "cherry");
    (GIT_REPOSITORY_STATE_CHERRYPICK_SEQUENCE, "cherry-seq");
    (GIT_REPOSITORY_STATE_BISECT, "bisect");
    (GIT_REPOSITORY_STATE_REBASE, "rebase");
    (GIT_REPOSITORY_STATE_REBASE_INTERACTIVE, "rebase-i");
    (GIT_REPOSITORY_STATE_REBASE_MERGE, "rebase-m");
    (GIT_REPOSITORY_STATE_APPLY_MAILBOX, "am");
    (GIT_REPOSITORY_STATE_APPLY_MAILBOX_OR_REBASE, "am/rebase") ].

Definition RepoState (repo : git_repository) : string :=
  let state := git_repository_state repo in
  if state =? GIT_REPOSITORY_STATE_NONE then ""
  else if state =? GIT_REPOSITORY_STATE_MERGE then "merge"
  else if state =? GIT_REPOSITORY_STATE_REVERT then "revert"
  else if state =? GIT_REPOSITORY_STATE_REVERT_SEQUENCE then "revert-seq"
  else if state =? GIT_REPOSITORY_STATE_CHERRYPICK then "cherry"
  else if state =? GIT_REPOSITORY_STATE_CHERRYPICK_SEQUENCE then "cherry-seq"
  else if state =? GIT_REPOSITORY_STATE_BISECT then "bisect"
  else if state =? GIT_REPOSITORY_STATE_REBASE then "rebase"
  else if state =? GIT_REPOSITORY_STATE_REBASE_INTERACTIVE then "rebase-i"
  else if state =? GIT_REPOSITORY_STATE_REBASE_MERGE then "rebase-m"
  else if state =? GIT_REPOSITORY_STATE_APPLY_MAILBOX then "am"
  else if state =? GIT_REPOSITORY_STATE_APPLY_MAILBOX_OR_REBASE then "am/rebase"
  else "action".

(** *** CountRange

    The loop [while (true)] runs as long as the walker hands out commits;
    [fuel] bounds the number of iterations, and [None] is the loop still
    running when the bound is reached. *)
Fixpoint CountRange_loop (fuel : nat) (range : string) (walk : git_revwalk)
    (res : Z) : M (option Z) :=
  match fuel with
  | O => mret None
  | S fuel' =>
      '(rc, oid) ← call (git_revwalk_next walk);
      if rc =? 0 then CountRange_loop fuel' range walk (size_t_incr res)
      else if rc =? GIT_ITEROVER then mret (Some res)
      else
        msg ← GitError;
        LOG ERROR ["git_revwalk_next: "; range; ": "; msg];;
        throw
  end.

Definition CountRange (fuel : nat) (repo : git_repository) (range : string)
  : M (option Z) :=
  '(rc, walk) ← call (git_revwalk_new repo);
  VERIFY (rc =? 0) "!git_revwalk_new(&walk, repo)" (msg ← GitError; mret [msg]);;
  ON_SCOPE_EXIT (git_revwalk_free walk) (
    rc ← call (git_revwalk_push_range walk range);
    VERIFY (rc =? 0) "!git_revwalk_push_range(walk, range.c_str())"
      (msg ← GitError; mret [msg]);;
    CountRange_loop fuel range walk 0).

(** *** RemoteUrl *)

Definition RemoteUrl (repo : git_repository) (ref : git_reference) : M string :=
  '(rc, remote_name) ← call (git_branch_remote_name repo (git_reference_name ref));
  if negb (rc =? 0) then mret ""
  else
    ON_SCOPE_EXIT (git_buf_free remote_name) (
      '(rc, remote) ← call (git_remote_lookup repo (ptr remote_name));
      if rc =? 0 then
        let res := default "" (git_remote_url remote) in
        release (git_remote_free remote);;
        mret res
      else if (rc =? GIT_ENOTFOUND) || (rc =? GIT_EINVALIDSPEC) then mret ""
      else
        msg ← GitError;
        LOG ERROR ["git_remote_lookup: "; msg];;
        throw).

(** *** Head

    A [git_reference*] that may be null is an [option]. *)
Definition Head (repo : git_repository) : M (option git_reference) :=
  '(rc, symbolic) ← call (git_reference_lookup repo "HEAD");
  if rc =? 0 then
    '(rc, direct) ← call (git_reference_resolve symbolic);
    if negb (rc =? 0) then
      LOG INFO ["Empty git repo (no HEAD)"];;
      mret (Some symbolic)
    else
      release (git_reference_free symbolic);;
      mret (Some direct)
  else if rc =? GIT_ENOTFOUND then mret None
  else
    msg ← GitError;
    LOG ERROR ["git_reference_lookup: "; msg];;
    throw.

(** *** Upstream

    [git_error_last()->klass] dereferences the last error; with no last
    error the process dies on the null pointer. *)
Definition Upstream (local : git_reference) : M (option git_reference) :=
  '(rc, upstream) ← call (git_branch_upstream local);
  if rc =? 0 then mret (Some upstream)
  else if rc =? GIT_ENOTFOUND then mret None
  else
    last ← read git_error_last;
    match last with
    | None => abort
    | Some err =>
        VERIFY (klass err =? GIT_ERROR_INVALID)
          "git_error_last()->klass == GIT_ERROR_INVALID"
          (msg ← GitError; mret ["git_branch_upstream: "; msg]);;
        mret None
    end.

(** *** LocalBranchName *)

Definition kHeadPrefix : string := "refs/heads/".

(** [sizeof(kHeadPrefix)] counts the terminating NUL. *)
Definition sizeof_kHeadPrefix : nat := S (String.length kHeadPrefix).

(** [std::memcmp]: 0 when the first [n] bytes agree, else the difference of
    the first two bytes that differ.  The end of a string is its NUL byte;
    the callers never compare past it. *)
Fixpoint memcmp (a b : string) (n : nat) {struct n} : Z :=
  match n with
  | O => 0
  | S n' =>
      match a, b with
      | String x a', String y b' =>
          if Ascii.eqb x y then memcmp a' b' n'
          else Z.of_nat (Ascii.nat_of_ascii x) - Z.of_nat (Ascii.nat_of_ascii y)
      | String x _, EmptyString => Z.of_nat (Ascii.nat_of_ascii x)
      | EmptyString, String y _ => - Z.of_nat (Ascii.nat_of_ascii y)
      | EmptyString, EmptyString => 0
      end
  end.

(** [s + n] on a [const char*]: the string from its [n]-th byte on. *)
Fixpoint advance (s : string) (n : nat) {struct n} : string :=
  match n, s with
  | O, _ => s
  | S n', String _ s' => advance s' n'
  | S _, EmptyString => EmptyString
  end.

Definition LocalBranchName (ref : option git_reference) : M string :=
  CHECK (bool_decide (is_Some ref)) "ref";;
  match ref with
  | None => abort
  | Some ref =>
      let type := git_reference_type ref in
      if type =? GIT_REFERENCE_DIRECT then
        mret (if negb (git_reference_is_branch ref =? 0)
              then git_reference_shorthand ref else "")
      else if type =? GIT_REFERENCE_SYMBOLIC then
        match git_reference_symbolic_target ref with
        | None => mret ""
        | Some target =>
            let len := String.length target in
            if (len <? sizeof_kHeadPrefix)%nat then mret ""
            else if negb (memcmp target kHeadPrefix (sizeof_kHeadPrefix - 1) =? 0)
            then mret ""
            else mret (advance target (sizeof_kHeadPrefix - 1))
        end
      else
        LOG ERROR ["Invalid reference type: "; pretty type];;
        throw
  end.

(** *** GetRemote *)

(** [std::strstr]: the offset of the first occurrence of [needle], or
    [None] for the null pointer. *)
Definition strstr (haystack needle : string) : option nat :=
  String.index 0 needle haystack.

(** [s[n]]: the byte at offset [n]; at the end of the string it is the NUL
    terminator. *)
Definition char_at (s : string) (n : nat) : Ascii.ascii :=
  default Ascii.zero (String.get n s).

Definition GetRemote (repo : git_repository) (ref : git_reference) : M Remote :=
  '(rc, branch) ← call (git_branch_name ref);
  if negb (rc =? 0) then mret Remote_empty
  else
    '(rc, remote) ← call (git_branch_remote_name repo (git_reference_name ref));
    if negb (rc =? 0) then mret Remote_empty
    else
      ON_SCOPE_EXIT (git_buf_free remote) (
        VERIFY (bool_decide (strstr branch (ptr remote) = Some 0%nat))
          "std::strstr(branch, remote.ptr) == branch" (mret []);;
        VERIFY (Ascii.eqb (char_at branch (buf_size remote)) "/"%char)
          "branch[remote.size] == '/'" (mret []);;
        mret {| name := ptr remote;
                branch := advance branch (buf_size remote + 1) |}).

End Queries.

(** ** A repository store behind the interface

    The object and reference store is the external collaborator of the
    queries.  [Store] is a finite description of one: the commit graph, the
    references, the tracking configuration and the remotes, with the
    library calls answered from these tables. *)
Module Store.

(** What a reference is bound to: an object id, or the name of another
    reference. *)
Inductive target :=
  | Direct (oid : N)
  | Symbolic (name : string).

Record repository := {
  operation : Z;                         (* marker of the operation in progress *)
  commits : gmap N (list N);             (* commit ↦ its parents *)
  revs : gmap string N;                  (* revision names that resolve to a commit *)
  refs : gmap string target;             (* reference store *)
  upstreams : gmap string string;        (* local branch ↦ its upstream reference *)
  tracking : gmap string string;         (* remote-tracking reference ↦ remote name *)
  remotes : gmap string (option string); (* remote ↦ fetch URL, if set *)
}.

Record reference := { owner : repository; refname : string; points_to : target }.

Record remote := { remote_name : string; url : option string }.

(** A revision walker: the commits already marked and those still to be
    looked at. *)
Record walker := { walked : repository; visited : gset N; pending : list N }.

Record state := { last_error : option git_error; walkers : gmap nat walker }.

(** A failing call records its error and returns its code. *)
Definition fail_code (code cls : Z) (msg : string) (st : state) : Z * state :=
  (code,
   {| last_error := Some {| message := Some msg; klass := cls |};
      walkers := walkers st |}).

Definition fail {A} (code cls : Z) (msg : string) (out : A) (st : state)
  : (Z * A) * state :=
  ((code, out), snd (fail_code code cls msg st)).

(** *** References *)

Definition no_reference (repo : repository) : reference :=
  {| owner := repo; refname := ""; points_to := Symbolic "" |}.

Definition reference_lookup (repo : repository) (name : string) (st : state)
  : (Z * reference) * state :=
  match refs repo !! name with
  | Some t => ((0, {| owner := repo; refname := name; points_to := t |}), st)
  | None =>
      fail GIT_ENOTFOUND 4 ("reference '" +:+ name +:+ "' not found")
        (no_reference repo) st
  end.

(** The chain of symbolic references from [name], followed for at most
    [depth] links. *)
Fixpoint follow (depth : nat) (repo : repository) (name : string)
  : option reference :=
  match refs repo !! name with
  | None => None
  | Some (Direct o) =>
      Some {| owner := repo; refname := name; points_to := Direct o |}
  | Some (Symbolic n) =>
      match depth with
      | O => None
      | S d => follow d repo n
      end
  end.

Definition reference_resolve (ref : reference) (st : state)
  : (Z * reference) * state :=
  match points_to ref with
  | Direct _ => ((0, ref), st)
  | Symbolic n =>
      match follow 5 (owner ref) n with
      | Some r => ((0, r), st)
      | None =>
          fail GIT_ENOTFOUND 4 ("reference '" +:+ n +:+ "' not found")
            (no_reference (owner ref)) st
      end
  end.

Definition reference_type (ref : reference) : Z :=
  match points_to ref with
  | Direct _ => GIT_REFERENCE_DIRECT
  | Symbolic _ => GIT_REFERENCE_SYMBOLIC
  end.

Definition reference_symbolic_target (ref : reference) : option string :=
  match points_to ref with
  | Direct _ => None
  | Symbolic n => Some n
  end.

Definition is_local_branch (name : string) : bool := String.prefix "refs/heads/" name.
Definition is_remote_branch (name : string) : bool := String.prefix "refs/remotes/" name.

Definition reference_is_branch (ref : reference) : Z :=
  if is_local_branch (refname ref) then 1 else 0.

Definition reference_shorthand (ref : reference) : string :=
  let n := refname ref in
  if is_local_branch n then advance n 11
  else if String.prefix "refs/tags/" n then advance n 10
  else if is_remote_branch n then advance n 13
  else if String.prefix "refs/" n then advance n 5
  else n.

(** *** Branches and remotes *)

Definition branch_upstream (local : reference) (st : state)
  : (Z * reference) * state :=
  if is_local_branch (refname local) then
    match upstreams (owner local) !! refname local with
    | Some up => reference_lookup (owner local) up st
    | None =>
        fail GIT_ENOTFOUND 7
          ("branch '" +:+ refname local +:+ "' does not have an upstream")
          (no_reference (owner local)) st
    end
  else
    fail (-1) GIT_ERROR_INVALID
      ("reference '" +:+ refname local +:+ "' is not a local branch.")
      (no_reference (owner local)) st.

Definition branch_name (ref : reference) (st : state) : (Z * string) * state :=
  let n := refname ref in
  if is_local_branch n then ((0, advance n 11), st)
  else if is_remote_branch n then ((0, advance n 13), st)
  else
    fail (-1) GIT_ERROR_INVALID
      ("reference '" +:+ n +:+ "' is neither a local nor a remote branch.") "" st.

Definition branch_remote_name (repo : repository) (name : string) (st : state)
  : (Z * git_buf) * state :=
  if is_remote_branch name then
    match tracking repo !! name with
    | Some r => ((0, {| ptr := r |}), st)
    | None =>
        fail GIT_ENOTFOUND 4
          ("reference '" +:+ name +:+ "' does not have a tracking remote")
          {| ptr := "" |} st
    end
  else
    fail (-1) GIT_ERROR_INVALID
      ("reference '" +:+ name +:+ "' is not a remote branch.") {| ptr := "" |} st.

Definition remote_lookup (repo : repository) (name : string) (st : state)
  : (Z * remote) * state :=
  let none := {| remote_name := ""; url := None |} in
  if bool_decide (name = "") then
    fail GIT_EINVALIDSPEC 7 "'' is not a valid remote name." none st
  else
    match remotes repo !! name with
    | Some u => ((0, {| remote_name := name; url := u |}), st)
    | None =>
        fail GIT_ENOTFOUND 7 ("remote '" +:+ name +:+ "' does not exist") none st
    end.

(** *** The commit graph and the revision walker *)

Definition parents_of (repo : repository) (c : N) : list N :=
  default [] (commits repo !! c).

(** [reachable repo a b]: [b] is [a] or an ancestor of [a]. *)
Inductive reachable (repo : repository) : N → N → Prop :=
  | reachable_self c : reachable repo c c
  | reachable_parent c p d :
      p ∈ parents_of repo c → reachable repo p d → reachable repo c d.

(** Modelled from the spec: the traversal behind [git_revwalk_next], "a
    reachability traversal ... following parent edges, marking each visited
    OID".  The next commit handed out is the first pending one that is not
    marked; it is marked and its parents become pending. *)
Fixpoint next_commit (repo : repository) (visited : gset N) (pending : list N)
  : option (N * walker) :=
  match pending with
  | [] => None
  | c :: rest =>
      if decide (c ∈ visited) then next_commit repo visited rest
      else
        Some (c, {| walked := repo;
                    visited := {[c]} ∪ visited;
                    pending := parents_of repo c ++ rest |})
  end.

(** The commits a walker hands out until it is exhausted; [None] when it is
    not exhausted after [fuel] commits. *)
Fixpoint drain (fuel : nat) (w : walker) : option (list N) :=
  match fuel with
  | O => None
  | S fuel' =>
      match next_commit (walked w) (visited w) (pending w) with
      | None => Some []
      | Some (c, w') => cons c <$> drain fuel' w'
      end
  end.

(** Every object id that is the parent of some commit. *)
Definition parent_ids (repo : repository) : gset N :=
  ⋃ (list_to_set <$> (snd <$> map_to_list (commits repo))).

(** Modelled from the spec: "(ancestors-of-c ∪ {c})", computed by a walk
    from [c] with nothing marked.  The walk hands out [c] and parents only,
    each once, which bounds its length. *)
Definition ancestors (repo : repository) (c : N) : gset N :=
  list_to_set
    (default []
       (drain (size (parent_ids repo) + 2)
          {| walked := repo; visited := ∅; pending := [c] |})).

(** Modelled from the spec: "the set difference between
    (ancestors-of-include ∪ {include}) and (ancestors-of-exclude ∪
    {exclude})". *)
Definition difference (repo : repository) (excl incl : N) : gset N :=
  ancestors repo incl ∖ ancestors repo excl.

(** A set of commits that has the parents of its members. *)
Definition closed (repo : repository) (X : gset N) : Prop :=
  ∀ v p, v ∈ X → p ∈ parents_of repo v → p ∈ X.

(** What holds of a walker of [repo] that started from the seed [s] with
    the closed set [X] marked: a parent of a marked commit is marked or
    pending, and what is pending or was marked since the start is reachable
    from [s]. *)
Record walk_inv (repo : repository) (X : gset N) (s : N) (w : walker)
  : Prop := {
  inv_repo : walked w = repo;
  inv_frontier : ∀ v p,
    v ∈ visited w → p ∈ parents_of repo v → p ∈ visited w ∨ p ∈ pending w;
  inv_sound : ∀ v, v ∈ visited w → v ∈ X ∨ reachable repo s v;
  inv_marked : X ⊆ visited w;
  inv_pending : ∀ p, p ∈ pending w → reachable repo s p;
  inv_seed : s ∈ visited w ∨ s ∈ pending w;
  inv_universe : ∀ p, p ∈ pending w → p = s ∨ p ∈ parent_ids repo;
}.

(** Modelled from the spec: a range is "a two-endpoint expression",
    "conceptually exclude..include"; it is split at its first "..". *)
Definition parse_range (range : string) : option (string * string) :=
  match String.index 0 ".." range with
  | Some k =>
      Some (String.substring 0 k range, advance range (k + 2))
  | None => None
  end.

Definition revwalk_new (repo : repository) (st : state) : (Z * nat) * state :=
  let h := fresh (dom (walkers st)) in
  ((0, h),
   {| last_error := last_error st;
      walkers := <[h := {| walked := repo; visited := ∅; pending := [] |}]>
                   (walkers st) |}).

Definition revwalk_free (h : nat) (st : state) : state :=
  {| last_error := last_error st; walkers := delete h (walkers st) |}.

(** Modelled from the spec: [git_revwalk_push_range] resolves the two
    endpoints, fails when one "cannot be resolved to a commit", marks "every
    OID reachable from the exclude endpoint as pre-visited" and seeds the
    traversal "at the include endpoint". *)
Definition revwalk_push_range (h : nat) (range : string) (st : state)
  : Z * state :=
  match walkers st !! h with
  | None => fail_code (-1) GIT_ERROR_INVALID "invalid walker" st
  | Some w =>
      match parse_range range with
      | None =>
          fail_code GIT_EINVALIDSPEC GIT_ERROR_INVALID
            "invalid revspec: range not provided" st
      | Some (excl, incl) =>
          match revs (walked w) !! excl, revs (walked w) !! incl with
          | Some e, Some i =>
              (0,
               {| last_error := last_error st;
                  walkers :=
                    <[h := {| walked := walked w;
                              visited := ancestors (walked w) e ∪ visited w;
                              pending := i :: pending w |}]> (walkers st) |})
          | None, _ =>
              fail_code GIT_ENOTFOUND 4 ("revspec '" +:+ excl +:+ "' not found") st
          | _, None =>
              fail_code GIT_ENOTFOUND 4 ("revspec '" +:+ incl +:+ "' not found") st
          end
      end
  end.

Definition revwalk_next (h : nat) (st : state) : (Z * N) * state :=
  match walkers st !! h with
  | None => fail (-1) GIT_ERROR_INVALID "invalid walker" 0%N st
  | Some w =>
      match next_commit (walked w) (visited w) (pending w) with
      | Some (c, w') =>
          ((0, c),
           {| last_error := last_error st; walkers := <[h := w']> (walkers st) |})
      | None => ((GIT_ITEROVER, 0%N), st)
      end
  end.

(** The store as an implementation of the library interface, for a given
    answer to [git_reference_symbolic_target]. *)
Definition library (target_of : reference → option string) : LibGit2 := {|
  lib_state := state;
  git_repository := repository;
  git_reference := reference;
  git_remote := remote;
  git_revwalk := nat;
  git_oid := N;
  git_error_last := last_error;
  git_repository_state := operation;
  git_revwalk_new := revwalk_new;
  git_revwalk_free := revwalk_free;
  git_revwalk_push_range := revwalk_push_range;
  git_revwalk_next := revwalk_next;
  git_reference_lookup := reference_lookup;
  git_reference_resolve := reference_resolve;
  git_reference_free := λ _ st, st;
  git_reference_type := reference_type;
  git_reference_is_branch := reference_is_branch;
  git_reference_shorthand := reference_shorthand;
  git_reference_name := refname;
  git_reference_symbolic_target := target_of;
  git_branch_upstream := branch_upstream;
  git_branch_name := branch_name;
  git_branch_remote_name := branch_remote_name;
  git_buf_free := λ _ st, st;
  git_remote_lookup := remote_lookup;
  git_remote_url := url;
  git_remote_free := λ _ st, st;
|}.

Definition libgit2 : LibGit2 := library reference_symbolic_target.

(** A library that hands back the null pointer as the target of every
    reference. *)
Definition libgit2_no_target : LibGit2 := library (λ _, None).

End Store.

(** A log line mentions a string when the string occurs in its text. *)
Definition mentions (s : string) (line : LogLine) : bool :=
  bool_decide (is_Some (String.index 0 s (text line))).

(** ** A sample repository

    [main] is two commits ahead of [origin/main] and three behind it; the
    tip of [origin/main] is a merge, so commit 3 is reached along two
    paths. *)
Module Sample.
Import Store.

Definition history : gmap N (list N) :=
  list_to_map
    [(1, []); (2, [1]); (3, [2]);
     (4, [3]); (5, [4]);
     (6, [3]); (7, [3]); (8, [6; 7])]%N.

Definition repo : repository := {|
  operation := GIT_REPOSITORY_STATE_REBASE_INTERACTIVE;
  commits := history;
  revs := list_to_map [("main", 5%N); ("origin/main", 8%N); ("HEAD", 5%N)];
  refs :=
    list_to_map
      [("HEAD", Symbolic "refs/heads/main");
       ("refs/heads/main", Direct 5);
       ("refs/heads/topic", Direct 4);
       ("refs/remotes/origin/main", Direct 8);
       ("refs/tags/v1", Direct 3)];
  upstreams := {[ "refs/heads/main" := "refs/remotes/origin/main" ]};
  tracking := {[ "refs/remotes/origin/main" := "origin" ]};
  remotes := {[ "origin" := Some "https://example.org/repo.git" ]};
|}.

(** A repository just initialised: [HEAD] names a branch without commits. *)
Definition unborn : repository := {|
  operation := GIT_REPOSITORY_STATE_NONE;
  commits := ∅;
  revs := ∅;
  refs := {[ "HEAD" := Symbolic "refs/heads/main" ]};
  upstreams := ∅;
  tracking := ∅;
  remotes := ∅;
|}.

Definition idle : state := {| last_error := None; walkers := ∅ |}.

Definition start : @World libgit2 := @Build_World libgit2 [] idle.

Definition HEAD_unborn : reference :=
  {| owner := unborn; refname := "HEAD"; points_to := Symbolic "refs/heads/main" |}.

Definition HEAD : reference :=
  {| owner := repo; refname := "HEAD"; points_to := Symbolic "refs/heads/main" |}.

Definition main : reference :=
  {| owner := repo; refname := "refs/heads/main"; points_to := Direct 5 |}.

Definition origin_main : reference :=
  {| owner := repo; refname := "refs/remotes/origin/main"; points_to := Direct 8 |}.

Definition origin : remote :=
  {| remote_name := "origin"; url := Some "https://example.org/repo.git" |}.

End Sample.


(** ** Opening a repository and counting the stashes

    The two other queries of [git.cc] use two more entry points of the
    library, and [Print] of print.h, which is not among the sources: it is
    the text streamed for a string and is taken as given. *)

(** [GIT_REPOSITORY_OPEN_FROM_ENV], include/git2/repository.h *)
Definition GIT_REPOSITORY_OPEN_FROM_ENV : Z := 16.

(** [git_repository_open_ext] takes the directory, the flags and the
    ceiling directories, null for none.  [git_stash_foreach] takes the
    callback and its payload; the callback gets the index, the message and
    the id of an entry with the payload, and returns its code with the
    payload as it leaves it.  The payload is the [size_t] behind the
    [void*]. *)
Class LibGit2Repo `{LibGit2} := {
  git_repository_open_ext :
    string → Z → option string → lib_state → (Z * git_repository) * lib_state;
  git_stash_foreach :
    git_repository → (Z → string → git_oid → Z → Z * Z) → Z →
    lib_state → (Z * Z) * lib_state;
  Print : string → string;
}.

Section RepositoryQueries.
Context `{LibGit2Repo}.
#[local] Existing Instance M_ret.
#[local] Existing Instance M_bind.

(** *** OpenRepo *)

Definition OpenRepo (dir : string) : M (option git_repository) :=
  '(rc, repo) ← call (git_repository_open_ext dir GIT_REPOSITORY_OPEN_FROM_ENV None);
  if rc =? 0 then mret (Some repo)
  else if rc =? GIT_ENOTFOUND then mret None
  else
    msg ← GitError;
    LOG ERROR ["git_repository_open_ext: "; Print dir; ": "; msg];;
    throw.

(** *** NumStashes *)

(** The callback [cb]: it counts the entry in the payload and returns 0. *)
Definition NumStashes_cb (index : Z) (message : string) (stash_id : git_oid)
    (payload : Z) : Z * Z :=
  (0, size_t_incr payload).

Definition NumStashes (repo : git_repository) : M Z :=
  '(rc, res) ← call (git_stash_foreach repo NumStashes_cb 0);
  VERIFY (rc =? 0) "!git_stash_foreach(repo, cb, &res)" (msg ← GitError; mret [msg]);;
  mret res.

(** What [git_stash_foreach] does with a stash list: the callback is called
    on each entry in order, with the index of the entry and the payload as
    the call before left it; a non-zero code of the callback stops the
    iteration and is the result. *)
Fixpoint stash_iterate (cb : Z → string → git_oid → Z → Z * Z)
    (entries : list (string * git_oid)) (index : Z) (payload : Z) : Z * Z :=
  match entries with
  | [] => (0, payload)
  | (message, stash_id) :: rest =>
      let '(rc, payload') := cb index message stash_id payload in
      if rc =? 0 then stash_iterate cb rest (index + 1) payload'
      else (rc, payload')
  end.

(** *** The steps of a walk *)

(** The library state after [k] calls of [git_revwalk_next] on [walk] that
    all returned 0; [None] when one of them returned something else. *)
Fixpoint handed_out (k : nat) (walk : git_revwalk) (l : lib_state)
  : option lib_state :=
  match k with
  | O => Some l
  | S k' =>
      let '((rc, _), l') := git_revwalk_next walk l in
      if rc =? 0 then handed_out k' walk l' else None
  end.

(** *** Head, then the branch it names *)

Definition HeadBranchName (repo : git_repository) : M string :=
  ref ← Head repo; LocalBranchName ref.

(** *** What a query leaves in the log

    A call that returned left the log of [w] as it was, a call that threw
    added one error line to it, and the call was not aborted. *)
Definition quiet_or_one_error {A} (w : World) (r : Outcome A * World) : Prop :=
  match fst r with
  | Returned _ => logged (snd r) = logged w
  | Thrown =>
      ∃ line, logged (snd r) = logged w ++ [line] ∧ severity line = ERROR
  | Aborted => False
  end.

End RepositoryQueries.

(** ** Directories and stashes for the store *)
Module Disk.
Import Store.

Definition no_repository : repository := {|
  operation := GIT_REPOSITORY_STATE_NONE;
  commits := ∅;
  revs := ∅;
  refs := ∅;
  upstreams := ∅;
  tracking := ∅;
  remotes := ∅;
|}.

(** A directory of [found] holds a repository, or something that cannot be
    opened as one; any other directory has no repository above it. *)
Definition open_ext (found : gmap string (option repository)) (dir : string)
    (flags : Z) (ceiling_dirs : option string) (st : state)
  : (Z * repository) * state :=
  match found !! dir with
  | Some (Some r) => ((0, r), st)
  | Some None =>
      fail (-1) 6 ("could not open repository at '" +:+ dir +:+ "'")
        no_repository st
  | None =>
      fail GIT_ENOTFOUND 6 ("could not find repository from '" +:+ dir +:+ "'")
        no_repository st
  end.

Definition library (found : gmap string (option repository))
    (stashes : repository → list (string * N)) : LibGit2Repo (H:=libgit2) :=
  @Build_LibGit2Repo libgit2
    (open_ext found)
    (λ repo cb payload st,
       (stash_iterate (H:=libgit2) cb (stashes repo) 0 payload, st))
    (λ dir, "'" +:+ dir +:+ "'").

(** A stash list that cannot be read. *)
Definition unreadable (found : gmap string (option repository))
  : LibGit2Repo (H:=libgit2) :=
  @Build_LibGit2Repo libgit2
    (open_ext found)
    (λ repo cb payload st, fail (-1) 6 "could not read the stash" payload st)
    (λ dir, "'" +:+ dir +:+ "'").

(** A walker that loads the commit it hands out: the step fails when the
    commit is not in the object database. *)
Definition checked_next (h : nat) (st : state) : (Z * N) * state :=
  match walkers st !! h with
  | None => fail (-1) GIT_ERROR_INVALID "invalid walker" 0%N st
  | Some w =>
      match next_commit (walked w) (visited w) (pending w) with
      | Some (c, w') =>
          if bool_decide (c ∈ dom (commits (walked w))) then
            ((0, c),
             {| last_error := last_error st;
                walkers := <[h := w']> (walkers st) |})
          else fail (-1) 9 "object not found - no match for id" 0%N st
      | None => ((GIT_ITEROVER, 0%N), st)
      end
  end.

Definition checking : LibGit2 := {|
  lib_state := state;
  git_repository := repository;
  git_reference := reference;
  git_remote := remote;
  git_revwalk := nat;
  git_oid := N;
  git_error_last := last_error;
  git_repository_state := operation;
  git_revwalk_new := revwalk_new;
  git_revwalk_free := revwalk_free;
  git_revwalk_push_range := revwalk_push_range;
  git_revwalk_next := checked_next;
  git_reference_lookup := reference_lookup;
  git_reference_resolve := reference_resolve;
  git_reference_free := λ _ st, st;
  git_reference_type := reference_type;
  git_reference_is_branch := reference_is_branch;
  git_reference_shorthand := reference_shorthand;
  git_reference_name := refname;
  git_reference_symbolic_target := reference_symbolic_target;
  git_branch_upstream := branch_upstream;
  git_branch_name := branch_name;
  git_branch_remote_name := branch_remote_name;
  git_buf_free := λ _ st, st;
  git_remote_lookup := remote_lookup;
  git_remote_url := url;
  git_remote_free := λ _ st, st;
|}.

(** A history cut below commit 2: its parent 1 is not in the database. *)
Definition cut : repository := {|
  operation := GIT_REPOSITORY_STATE_NONE;
  commits := list_to_map [(3, [2]); (2, [1]); (7, [])]%N;
  revs := list_to_map [("tip", 3%N); ("side", 7%N)];
  refs := ∅;
  upstreams := ∅;
  tracking := ∅;
  remotes := ∅;
|}.

(** A repository whose remote "upstream" fetches into refs/remotes/origin. *)
Definition renamed : repository := {|
  operation := GIT_REPOSITORY_STATE_NONE;
  commits := Sample.history;
  revs := ∅;
  refs := {[ "refs/remotes/origin/main" := Direct 8 ]};
  upstreams := ∅;
  tracking := {[ "refs/remotes/origin/main" := "upstream" ]};
  remotes := {[ "upstream" := Some "https://example.org/repo.git" ]};
|}.

Definition renamed_origin_main : reference :=
  {| owner := renamed; refname := "refs/remotes/origin/main";
     points_to := Direct 8 |}.

(** The sample repository in its directory, with two stashes, next to a
    directory that cannot be opened. *)
Definition sample : LibGit2Repo (H:=libgit2) :=
  library {[ "/home/dev/project" := Some Sample.repo; "/home/dev/broken" := None ]}
    (λ _, [("WIP on main: fix", 9%N); ("On main: experiment", 10%N)]).

End Disk.

(** * Strings as the queries use them *)

Section Strings.
Implicit Types s t p : string.

Lemma advance_app p s : advance (p +:+ s) (String.length p) = s.
Proof. induction p as [|c p IH]; [by destruct s|exact IH]. Qed.

Lemma prefix_nil t : String.prefix "" t = true.
Proof. by destruct t. Qed.

Lemma prefix_cons_nil c p : String.prefix (String c p) "" = false.
Proof. reflexivity. Qed.

Lemma prefix_cons c p d t :
  String.prefix (String c p) (String d t) = true ↔ c = d ∧ String.prefix p t = true.
Proof.
  change (String.prefix (String c p) (String d t))
    with (match Ascii.ascii_dec c d with
          | left _ => String.prefix p t
          | right _ => false
          end).
  destruct (Ascii.ascii_dec c d) as [Heq|Hne]; split; intros Hp;
    [done| apply Hp | done | by destruct Hp].
Qed.

Lemma prefix_app p s : String.prefix p (p +:+ s) = true.
Proof.
  induction p as [|c p IH]; [apply prefix_nil|].
  change (String c p +:+ s) with (String c (p +:+ s)). by apply prefix_cons.
Qed.

(** A prefix splits the string: what follows it is the string advanced by
    its length. *)
Lemma prefix_advance p t :
  String.prefix p t = true → t = p +:+ advance t (String.length p).
Proof.
  revert t. induction p as [|c p IH]; intros t Hp; [done|].
  destruct t as [|d t]; [done|].
  apply prefix_cons in Hp as [-> Hp].
  change (String d t = String d (p +:+ advance t (String.length p))).
  f_equal. by apply IH.
Qed.

Lemma prefix_app_inv p q t :
  String.prefix (p +:+ q) t = true ↔
  String.prefix p t = true ∧ String.prefix q (advance t (String.length p)) = true.
Proof.
  revert t. induction p as [|c p IH]; intros t.
  - simpl. rewrite prefix_nil. tauto.
  - change (String c p +:+ q) with (String c (p +:+ q)).
    destruct t as [|d t]; [rewrite !prefix_cons_nil; intuition congruence|].
    rewrite !prefix_cons, IH. simpl. tauto.
Qed.

(** [strstr(h, n) == h] says that [n] is a prefix of [h]. *)
Lemma strstr_start h n : strstr h n = Some 0%nat ↔ String.prefix n h = true.
Proof.
  unfold strstr. destruct h as [|b h].
  - destruct n; simpl; split; congruence.
  - change (String.index 0 n (String b h))
      with (if String.prefix n (String b h) then Some 0%nat
            else match String.index 0 n h with
                 | Some k => Some (S k)
                 | None => None
                 end).
    destruct (String.prefix n (String b h)); [done|].
    destruct (String.index 0 n h); split; congruence.
Qed.

(** The byte at the start of a string is a given non-NUL byte exactly when
    that byte is a prefix. *)
Lemma char_at_start t c :
  c ≠ Ascii.zero →
  char_at t 0 = c ↔ String.prefix (String c "") t = true.
Proof.
  intros Hc. destruct t as [|d t].
  - rewrite prefix_cons_nil. unfold char_at. simpl. split; congruence.
  - rewrite prefix_cons, prefix_nil. unfold char_at. simpl. intuition congruence.
Qed.

Lemma char_at_advance t n : char_at t n = char_at (advance t n) 0.
Proof.
  revert t. induction n as [|n IH]; intros [|d t]; try done.
  unfold char_at in *. simpl. apply IH.
Qed.

Lemma advance_add t n m : advance t (n + m) = advance (advance t n) m.
Proof.
  revert t. induction n as [|n IH]; intros [|d t]; simpl; try done.
  by destruct m.
Qed.

(** [memcmp] over the whole of [p] is 0 exactly when [p] is a prefix, for a
    string at least as long as [p]. *)
Lemma memcmp_prefix p t :
  (String.length p ≤ String.length t)%nat →
  memcmp t p (String.length p) = 0 ↔ String.prefix p t = true.
Proof.
  revert t. induction p as [|c p IH]; intros t Hlen.
  - rewrite prefix_nil. split; reflexivity.
  - destruct t as [|d t]; simpl in Hlen; [lia|].
    rewrite prefix_cons. simpl. case Ascii.eqb_spec.
    + intros ->. rewrite IH by lia. tauto.
    + intros Hne. split; [|intros [? _]; congruence]. intros Hz. exfalso. apply Hne.
      rewrite <- (Ascii.ascii_nat_embedding d), <- (Ascii.ascii_nat_embedding c).
      f_equal. lia.
Qed.

End Strings.

(** * Properties of the queries, for any behaviour of the library *)

(** Unfolds the monad of the queries. *)
Ltac run :=
  unfold mbind, mret, M_bind, M_ret, call, release, throw, abort, LOG,
    GitError, read, after; simpl.

Section QueryProperties.
Context `{LibGit2}.

(** C2. RepoState is a total function of the operation state: each of the
    twelve states of the library has its tag, the thirteen tags (with the
    fallback "action") are pairwise different, so the tag of an interactive
    rebase is not that of a plain rebase, and every other value of the state
    gets the fallback tag. *)
Theorem RepoState_total (repo : git_repository) :
  (∀ st tag, (st, tag) ∈ state_tags →
     git_repository_state repo = st → RepoState repo = tag) ∧
  (git_repository_state repo ∉ state_tags.*1 → RepoState repo = "action") ∧
  NoDup ("action" :: state_tags.*2) ∧
  NoDup state_tags.*1 ∧
  length state_tags = 12%nat.
Proof.
  split_and!.
  - intros st tag Hin Hst. unfold RepoState. rewrite Hst.
    unfold state_tags in Hin.
    repeat (apply elem_of_cons in Hin as [[= -> ->]|Hin]; [reflexivity|]).
    by apply elem_of_nil in Hin.
  - intros Hout. unfold RepoState.
    repeat (case Z.eqb_spec;
            [intros Heq; exfalso; apply Hout; rewrite Heq; set_solver|intros _]).
    reflexivity.
  - by apply (bool_decide_unpack _).
  - by apply (bool_decide_unpack _).
  - reflexivity.
Qed.

(** C3. Head: when the library has no reference HEAD the result is null;
    when HEAD is found and cannot be resolved to a direct reference the
    result is the reference that was found; when it resolves the result is
    the direct reference; any other failure of the lookup is logged with
    the message of the library and an exception is thrown. *)
Theorem Head_resolution (repo : git_repository) (w : World)
    (rc : Z) (symbolic : git_reference) (l1 : lib_state) :
  git_reference_lookup repo "HEAD" (lib w) = ((rc, symbolic), l1) →
  (rc = GIT_ENOTFOUND → Head repo w = (Returned None, after w l1)) ∧
  (rc = 0 → ∀ rc' direct l2,
     git_reference_resolve symbolic l1 = ((rc', direct), l2) →
     (rc' ≠ 0 → fst (Head repo w) = Returned (Some symbolic)) ∧
     (rc' = 0 → fst (Head repo w) = Returned (Some direct))) ∧
  (rc ≠ 0 → rc ≠ GIT_ENOTFOUND →
     Head repo w =
       (Thrown,
        {| logged := logged w ++
             [{| severity := ERROR;
                 text := "git_reference_lookup: " +:+ GitError_text l1 |}];
           lib := l1 |})).
Proof.
  intros Hlookup. unfold Head. run. rewrite Hlookup. simpl. split_and!.
  - intros ->. reflexivity.
  - intros -> rc' direct l2 Hres. simpl. rewrite Hres. simpl. split.
    + intros Hrc'. apply Z.eqb_neq in Hrc'. by rewrite Hrc'.
    + intros ->. reflexivity.
  - intros H0 Hnf. apply Z.eqb_neq in H0, Hnf. rewrite H0, Hnf. simpl.
    reflexivity.
Qed.

(** C5. Upstream: the result is null when no upstream is configured
    (GIT_ENOTFOUND) and when the lookup fails with an error of class
    GIT_ERROR_INVALID; every other failure of the lookup is fatal: an
    exception is thrown after the error is logged, and with no last error
    to inspect the process is aborted. *)
Theorem Upstream_outcomes (local : git_reference) (w : World)
    (rc : Z) (upstream : git_reference) (l1 : lib_state) :
  git_branch_upstream local (lib w) = ((rc, upstream), l1) →
  (rc = 0 → Upstream local w = (Returned (Some upstream), after w l1)) ∧
  (rc = GIT_ENOTFOUND → Upstream local w = (Returned None, after w l1)) ∧
  (rc ≠ 0 → rc ≠ GIT_ENOTFOUND →
     (∀ err, git_error_last l1 = Some err → klass err = GIT_ERROR_INVALID →
        Upstream local w = (Returned None, after w l1)) ∧
     (∀ err, git_error_last l1 = Some err → klass err ≠ GIT_ERROR_INVALID →
        Upstream local w =
          (Thrown,
           {| logged := logged w ++
                [{| severity := ERROR;
                    text := "git_error_last()->klass == GIT_ERROR_INVALID: "
                            +:+ "git_branch_upstream: " +:+ GitError_text l1 |}];
              lib := l1 |})) ∧
     (git_error_last l1 = None → Upstream local w = (Aborted, after w l1))).
Proof.
  intros Hup. unfold Upstream. run. rewrite Hup. simpl. split_and!.
  - intros ->. reflexivity.
  - intros ->. reflexivity.
  - intros H0 Hnf. apply Z.eqb_neq in H0, Hnf. rewrite H0, Hnf. simpl.
    split_and!.
    + intros err -> Hk. unfold VERIFY. by rewrite Hk.
    + intros err -> Hk. apply Z.eqb_neq in Hk. unfold VERIFY. rewrite Hk.
      run. reflexivity.
    + intros ->. reflexivity.
Qed.

(** C7. RemoteUrl: the result is the empty string when the remote name of
    the branch cannot be obtained, when the remote is not found
    (GIT_ENOTFOUND), when its name is not a valid remote specifier
    (GIT_EINVALIDSPEC) and when the remote has no URL; otherwise it is the
    URL of the remote; any other failure of the remote lookup throws. *)
Theorem RemoteUrl_outcomes (repo : git_repository) (ref : git_reference)
    (w : World) (rc1 : Z) (remote_name : git_buf) (l1 : lib_state)
    (rc2 : Z) (remote : git_remote) (l2 : lib_state) :
  git_branch_remote_name repo (git_reference_name ref) (lib w)
    = ((rc1, remote_name), l1) →
  git_remote_lookup repo (ptr remote_name) l1 = ((rc2, remote), l2) →
  (rc1 ≠ 0 → fst (RemoteUrl repo ref w) = Returned "") ∧
  (rc1 = 0 →
     (rc2 = GIT_ENOTFOUND ∨ rc2 = GIT_EINVALIDSPEC →
        fst (RemoteUrl repo ref w) = Returned "") ∧
     (rc2 = 0 → git_remote_url remote = None →
        fst (RemoteUrl repo ref w) = Returned "") ∧
     (rc2 = 0 → ∀ u, git_remote_url remote = Some u →
        fst (RemoteUrl repo ref w) = Returned u) ∧
     (rc2 ≠ 0 → rc2 ≠ GIT_ENOTFOUND → rc2 ≠ GIT_EINVALIDSPEC →
        fst (RemoteUrl repo ref w) = Thrown)).
Proof.
  intros Hname Hlookup. unfold RemoteUrl, ON_SCOPE_EXIT. run. rewrite Hname.
  simpl. split.
  - intros Hrc. apply Z.eqb_neq in Hrc. by rewrite Hrc.
  - intros ->. simpl. rewrite Hlookup. simpl. split_and!.
    + by intros [-> | ->].
    + by intros -> ->.
    + by intros -> u ->.
    + intros H0 Hnf Hinv. apply Z.eqb_neq in H0, Hnf, Hinv.
      by rewrite H0, Hnf, Hinv.
Qed.

(** C10. RemoteUrl: whatever the code with which the lookup of the remote
    name fails, the result is the empty string, nothing is logged and no
    other call is made; when RemoteUrl does not return, the remote name was
    found and it is the remote lookup that failed, with a code other than
    GIT_ENOTFOUND and GIT_EINVALIDSPEC. *)
Theorem RemoteUrl_remote_name_failure (repo : git_repository)
    (ref : git_reference) (w : World)
    (rc1 : Z) (remote_name : git_buf) (l1 : lib_state) :
  git_branch_remote_name repo (git_reference_name ref) (lib w)
    = ((rc1, remote_name), l1) →
  (rc1 ≠ 0 → RemoteUrl repo ref w = (Returned "", after w l1)) ∧
  ((∀ s, fst (RemoteUrl repo ref w) ≠ Returned s) →
     let rc2 := fst (fst (git_remote_lookup repo (ptr remote_name) l1)) in
     rc1 = 0 ∧ rc2 ≠ 0 ∧ rc2 ≠ GIT_ENOTFOUND ∧ rc2 ≠ GIT_EINVALIDSPEC ∧
     fst (RemoteUrl repo ref w) = Thrown).
Proof.
  intros Hname. unfold RemoteUrl, ON_SCOPE_EXIT. run. rewrite Hname. simpl.
  split.
  - intros Hrc. apply Z.eqb_neq in Hrc. by rewrite Hrc.
  - case (Z.eqb_spec rc1 0); simpl; [intros ->|intros _ Hno; by destruct (Hno "")].
    destruct (git_remote_lookup repo (ptr remote_name) l1) as [[rc2 remote] l2].
    simpl.
    case (Z.eqb_spec rc2 0); simpl; [intros _ Hno; by edestruct Hno|intros H0].
    case (Z.eqb_spec rc2 GIT_ENOTFOUND); simpl;
      [intros _ Hno; by edestruct Hno|intros Hnf].
    case (Z.eqb_spec rc2 GIT_EINVALIDSPEC); simpl;
      [intros _ Hno; by edestruct Hno|intros Hinv].
    done.
Qed.

(** C9. LocalBranchName of a symbolic reference whose target is the null
    pointer is the empty string; nothing is logged and nothing fails. *)
Theorem LocalBranchName_null_target (ref : git_reference) (w : World) :
  git_reference_type ref = GIT_REFERENCE_SYMBOLIC →
  git_reference_symbolic_target ref = None →
  LocalBranchName (Some ref) w = (Returned "", w).
Proof.
  intros Htype Htarget. unfold LocalBranchName, CHECK. run.
  by rewrite Htype, Htarget.
Qed.

(** C4. LocalBranchName: for a direct reference, its short name when the
    library classifies it as a branch and the empty string otherwise; for a
    symbolic reference, what follows "refs/heads/" in the target when the
    target begins with it, and the empty string otherwise; for any other
    kind of reference an exception is thrown. *)
Theorem LocalBranchName_cases (ref : git_reference) (w : World) :
  (git_reference_type ref = GIT_REFERENCE_DIRECT →
     (git_reference_is_branch ref ≠ 0 →
        LocalBranchName (Some ref) w = (Returned (git_reference_shorthand ref), w)) ∧
     (git_reference_is_branch ref = 0 →
        LocalBranchName (Some ref) w = (Returned "", w))) ∧
  (git_reference_type ref = GIT_REFERENCE_SYMBOLIC →
     ∀ target, git_reference_symbolic_target ref = Some target →
     (∀ suffix, target = "refs/heads/" +:+ suffix →
        LocalBranchName (Some ref) w = (Returned suffix, w)) ∧
     (String.prefix "refs/heads/" target = false →
        LocalBranchName (Some ref) w = (Returned "", w))) ∧
  (git_reference_type ref ≠ GIT_REFERENCE_DIRECT →
   git_reference_type ref ≠ GIT_REFERENCE_SYMBOLIC →
     fst (LocalBranchName (Some ref) w) = Thrown).
Proof.
  unfold LocalBranchName, CHECK. run. split_and!.
  - intros ->. simpl. split.
    + intros Hb. apply Z.eqb_neq in Hb. by rewrite Hb.
    + by intros ->.
  - intros -> target ->. simpl. split.
    + intros suffix ->. destruct suffix as [|c suffix]; [reflexivity|].
      reflexivity.
    + intros Hnp.
      case Nat.ltb_spec; [done|intros Hlen].
      case Z.eqb_spec; [|done]. intros Hcmp.
      apply (memcmp_prefix kHeadPrefix) in Hcmp; [|unfold sizeof_kHeadPrefix in Hlen; lia].
      unfold kHeadPrefix in Hcmp. congruence.
  - intros Hd Hs. apply Z.eqb_neq in Hd, Hs. by rewrite Hd, Hs.
Qed.

(** C6. GetRemote: the result is empty when the library does not give a
    branch name for the reference and when no remote is configured for it.
    Otherwise, when the branch name begins with the remote name followed by
    "/", the result is the remote name with the rest of the branch name,
    and joining the two with "/" gives the branch name back; when it does
    not, an exception is thrown. *)
Theorem GetRemote_outcomes (repo : git_repository) (ref : git_reference)
    (w : World) (rc1 : Z) (br : string) (l1 : lib_state)
    (rc2 : Z) (remote : git_buf) (l2 : lib_state) :
  git_branch_name ref (lib w) = ((rc1, br), l1) →
  git_branch_remote_name repo (git_reference_name ref) l1
    = ((rc2, remote), l2) →
  (rc1 ≠ 0 → GetRemote repo ref w = (Returned Remote_empty, after w l1)) ∧
  (rc1 = 0 → rc2 ≠ 0 →
     GetRemote repo ref w = (Returned Remote_empty, after w l2)) ∧
  (rc1 = 0 → rc2 = 0 →
     (String.prefix (ptr remote +:+ "/") br = true →
        ∃ r, fst (GetRemote repo ref w) = Returned r ∧
             name r = ptr remote ∧
             name r +:+ "/" +:+ branch r = br) ∧
     (String.prefix (ptr remote +:+ "/") br = false →
        fst (GetRemote repo ref w) = Thrown)).
Proof.
  intros Hname Hremote. unfold GetRemote, ON_SCOPE_EXIT. run. rewrite Hname.
  simpl. split_and!.
  - intros Hrc. apply Z.eqb_neq in Hrc. by rewrite Hrc.
  - intros -> Hrc. simpl. rewrite Hremote. simpl.
    apply Z.eqb_neq in Hrc. by rewrite Hrc.
  - intros -> ->. simpl. rewrite Hremote. simpl. unfold VERIFY, buf_size.
    rewrite char_at_advance.
    pose proof (prefix_app_inv (ptr remote) "/" br) as Hsplit.
    pose proof (strstr_start br (ptr remote)) as Hstart.
    pose proof (char_at_start (advance br (String.length (ptr remote))) "/")
      as Hsep.
    case bool_decide_reflect; intros Hpre.
    + apply Hstart in Hpre. case Ascii.eqb_spec; intros Hc.
      * apply Hsep in Hc; [|done].
        split; [intros _|intros Hno; rewrite (proj2 Hsplit) in Hno; done].
        run. eexists. split_and!; [reflexivity..|].
        simpl. rewrite advance_add.
        rewrite (prefix_advance _ _ Hpre) at 2. f_equal.
        by rewrite (prefix_advance _ _ Hc) at 2.
      * split; [|done]. intros Hyes. apply Hsplit in Hyes as [_ Hyes].
        apply Hsep in Hyes; done.
    + split; [|done]. intros Hyes. apply Hsplit in Hyes as [Hyes _].
      by apply Hstart in Hyes.
Qed.

(** The other failure of CountRange: when a step of the walk fails with a
    code that is not GIT_ITEROVER, the line logged has the range expression
    and the message of the library. *)
Lemma CountRange_loop_failure (fuel : nat) (range : string)
    (walk : git_revwalk) (res : Z) (w : World)
    (rc : Z) (oid : git_oid) (l1 : lib_state) :
  git_revwalk_next walk (lib w) = ((rc, oid), l1) →
  rc ≠ 0 → rc ≠ GIT_ITEROVER →
  CountRange_loop (S fuel) range walk res w =
    (Thrown,
     {| logged := logged w ++
          [{| severity := ERROR;
              text := "git_revwalk_next: " +:+ range +:+ ": "
                      +:+ GitError_text l1 |}];
        lib := l1 |}).
Proof.
  intros Hnext H0 Hover. simpl. run. rewrite Hnext. simpl.
  apply Z.eqb_neq in H0, Hover. by rewrite H0, Hover.
Qed.

(** C8, as the code has it.  When the endpoints of the range cannot be
    resolved, git_revwalk_push_range fails; CountRange then logs one error
    line, made of the failed verification and the message of the library,
    and throws.  The walker is released, and the range expression is not
    streamed into that line. *)
Theorem CountRange_unresolved_range (fuel : nat) (repo : git_repository)
    (range : string) (w : World)
    (walk : git_revwalk) (l1 : lib_state) (rc : Z) (l2 : lib_state) :
  git_revwalk_new repo (lib w) = ((0, walk), l1) →
  git_revwalk_push_range walk range l1 = (rc, l2) →
  rc ≠ 0 →
  CountRange fuel repo range w =
    (Thrown,
     {| logged := logged w ++
          [{| severity := ERROR;
              text := "!git_revwalk_push_range(walk, range.c_str()): "
                      +:+ GitError_text l2 |}];
        lib := git_revwalk_free walk l2 |}).
Proof.
  intros Hnew Hpush Hrc. unfold CountRange, ON_SCOPE_EXIT, VERIFY. run.
  rewrite Hnew. simpl. rewrite Hpush. simpl.
  apply Z.eqb_neq in Hrc. by rewrite Hrc.
Qed.

(** When the walker cannot even be created, CountRange throws as well, with
    the line of that verification. *)
Lemma CountRange_no_walker (fuel : nat) (repo : git_repository)
    (range : string) (w : World)
    (rc : Z) (walk : git_revwalk) (l1 : lib_state) :
  git_revwalk_new repo (lib w) = ((rc, walk), l1) →
  rc ≠ 0 →
  CountRange fuel repo range w =
    (Thrown,
     {| logged := logged w ++
          [{| severity := ERROR;
              text := "!git_revwalk_new(&walk, repo): " +:+ GitError_text l1 |}];
        lib := l1 |}).
Proof.
  intros Hnew Hrc. unfold CountRange, VERIFY. run. rewrite Hnew. simpl.
  apply Z.eqb_neq in Hrc. by rewrite Hrc.
Qed.

End QueryProperties.

(** * The revision walker of the store *)

Section Walk.
Import Store.
Variable repo : repository.
Implicit Types (w : walker) (c p s x : N) (X V : gset N) (Y : list N).

Lemma reachable_snoc s c p :
  reachable repo s c → p ∈ parents_of repo c → reachable repo s p.
Proof.
  induction 1 as [c|a b d Hab Hbd IH]; intros Hp.
  - eapply reachable_parent; [done|constructor].
  - eapply reachable_parent; [done|by apply IH].
Qed.

Lemma parents_in_parent_ids c p :
  p ∈ parents_of repo c → p ∈ parent_ids repo.
Proof.
  unfold parents_of, parent_ids. intros Hp.
  destruct (commits repo !! c) as [ps|] eqn:Hc; simpl in Hp;
    [|by apply elem_of_nil in Hp].
  apply elem_of_union_list. exists (list_to_set ps).
  split; [|by apply elem_of_list_to_set].
  apply list_elem_of_fmap. exists ps. split; [done|].
  apply list_elem_of_fmap. exists (c, ps). split; [done|].
  by apply elem_of_map_to_list.
Qed.

(** The commit handed out is pending and not marked; the pending commits
    before it are marked and dropped. *)
Lemma next_commit_Some V P c w' :
  next_commit repo V P = Some (c, w') →
  ∃ pre rest, P = pre ++ c :: rest ∧ (∀ x, x ∈ pre → x ∈ V) ∧ (c ∉ V) ∧
    w' = {| walked := repo; visited := {[c]} ∪ V;
            pending := (parents_of repo c ++ rest) |}.
Proof.
  induction P as [|d P IH]; simpl; [done|].
  case_decide as Hd.
  - intros Hnext. destruct (IH Hnext) as (pre & rest & -> & Hpre & Hc & ->).
    exists (d :: pre), rest. split_and!; [done| |done..].
    intros x [->|Hx]%elem_of_cons; auto.
  - intros [= <- <-]. exists [], P. split_and!; [done| |done..].
    intros x Hx. by apply elem_of_nil in Hx.
Qed.

Lemma next_commit_None V P :
  next_commit repo V P = None → ∀ x, x ∈ P → x ∈ V.
Proof.
  induction P as [|d P IH]; simpl; intros Hnext x Hx.
  - by apply elem_of_nil in Hx.
  - case_decide as Hd; [|done].
    apply elem_of_cons in Hx as [->|Hx]; auto.
Qed.

Lemma walk_inv_start X s :
  closed repo X →
  walk_inv repo X s {| walked := repo; visited := X; pending := [s] |}.
Proof.
  intros Hcl. split; simpl.
  - done.
  - intros v p Hv Hp. left. by eapply Hcl.
  - auto.
  - done.
  - intros p ->%list_elem_of_singleton. constructor.
  - right. by apply list_elem_of_singleton.
  - intros p ->%list_elem_of_singleton. by left.
Qed.

Lemma walk_inv_step X s w c w' :
  walk_inv repo X s w →
  next_commit (walked w) (visited w) (pending w) = Some (c, w') →
  walk_inv repo X s w' ∧ (c ∉ visited w) ∧ visited w' = {[c]} ∪ visited w ∧
  (c = s ∨ c ∈ parent_ids repo).
Proof.
  intros [Hrepo Hfr Hsound Hmark Hpend Hseed Huni] Hnext.
  rewrite Hrepo in Hnext.
  apply next_commit_Some in Hnext as (pre & rest & HP & Hpre & Hc & ->).
  assert (Hcin : c ∈ pending w) by (rewrite HP; set_solver).
  split_and!; [|done|done|by apply Huni].
  split; simpl.
  - done.
  - intros v p [->%elem_of_singleton|Hv]%elem_of_union Hp.
    + right. set_solver.
    + destruct (Hfr v p Hv Hp) as [?|Hin]; [set_solver|].
      rewrite HP in Hin. set_solver.
  - intros v [->%elem_of_singleton|Hv]%elem_of_union; auto.
  - set_solver.
  - intros p [Hp|Hp]%elem_of_app.
    + eapply reachable_snoc; [|done]. auto.
    + apply Hpend. rewrite HP. set_solver.
  - destruct Hseed as [?|Hin]; [set_solver|].
    rewrite HP in Hin. set_solver.
  - intros p [Hp|Hp]%elem_of_app.
    + right. by eapply parents_in_parent_ids.
    + apply Huni. rewrite HP. set_solver.
Qed.

(** When nothing is left to hand out, the marked commits are those marked
    at the start and those reachable from the seed. *)
Lemma walk_inv_end X s w :
  walk_inv repo X s w →
  next_commit (walked w) (visited w) (pending w) = None →
  ∀ x, x ∈ visited w ↔ x ∈ X ∨ reachable repo s x.
Proof.
  intros [Hrepo Hfr Hsound Hmark Hpend Hseed Huni] Hnext x.
  rewrite Hrepo in Hnext.
  pose proof (next_commit_None _ _ Hnext) as Hall.
  split; [by apply Hsound|]. intros [Hx|Hx]; [by apply Hmark|].
  assert (Hcl : ∀ a b, reachable repo a b → a ∈ visited w → b ∈ visited w).
  { induction 1 as [c|c p d Hp _ IH]; [done|]. intros Hc. apply IH.
    destruct (Hfr c p Hc Hp); auto. }
  apply (Hcl s x Hx). destruct Hseed; auto.
Qed.

(** The commits handed out by a walk that ends: each once, none that was
    marked, and with the marked ones they are what is reachable. *)
Lemma drain_spec X s fuel w Y :
  walk_inv repo X s w →
  drain fuel w = Some Y →
  NoDup Y ∧ (∀ y, y ∈ Y → y ∉ visited w) ∧
  (∀ x, x ∈ visited w ∨ x ∈ Y ↔ x ∈ X ∨ reachable repo s x).
Proof.
  revert w Y. induction fuel as [|fuel IH]; intros w Y Hinv; simpl; [done|].
  destruct (next_commit _ _ _) as [[c w']|] eqn:Hnext.
  - destruct (drain fuel w') as [Y'|] eqn:Hdrain; simpl; [|done].
    intros [= <-].
    destruct (walk_inv_step _ _ _ _ _ Hinv Hnext) as (Hinv' & Hc & Hvis & _).
    destruct (IH _ _ Hinv' Hdrain) as (Hnd & Hfresh & Hall).
    rewrite Hvis in Hfresh, Hall. split_and!.
    + apply NoDup_cons. split; [|done]. intros Hin.
      apply (Hfresh c Hin). set_solver.
    + intros y [->|Hy]%elem_of_cons; [done|].
      intros Hv. apply (Hfresh y Hy). set_solver.
    + intros x. rewrite <- Hall. set_solver.
  - intros [= <-]. split_and!; [constructor|set_solver|].
    intros x. rewrite <- (walk_inv_end _ _ _ Hinv Hnext). set_solver.
Qed.

(** A walk either ends within its fuel or has handed out as many commits as
    it had fuel, all different. *)
Lemma drain_runs X s fuel w :
  walk_inv repo X s w →
  is_Some (drain fuel w) ∨
  ∃ Y, length Y = fuel ∧ NoDup Y ∧ ∀ y, y ∈ Y →
    (y ∉ visited w) ∧ (y = s ∨ y ∈ parent_ids repo).
Proof.
  revert w. induction fuel as [|fuel IH]; intros w Hinv; simpl.
  - right. exists []. split_and!; [done|constructor|set_solver].
  - destruct (next_commit _ _ _) as [[c w']|] eqn:Hnext; [|by left].
    destruct (walk_inv_step _ _ _ _ _ Hinv Hnext) as (Hinv' & Hc & Hvis & Hu).
    destruct (IH _ Hinv') as [[Y' ->]|(Y' & Hlen & Hnd & Hall)]; [by left|].
    right. exists (c :: Y'). rewrite Hvis in Hall. split_and!.
    + simpl. by rewrite Hlen.
    + apply NoDup_cons. split; [|done]. intros Hin.
      destruct (Hall c Hin) as [Hno _]. set_solver.
    + intros y [->|Hy]%elem_of_cons; [done|].
      destruct (Hall y Hy) as [Hno ?]. split; [set_solver|done].
Qed.

(** A walk hands out the seed and parents only, so it ends within a fuel
    of two more than the number of parents. *)
Lemma drain_ends X s w :
  walk_inv repo X s w →
  is_Some (drain (size (parent_ids repo) + 2) w).
Proof.
  intros Hinv.
  destruct (drain_runs _ _ (size (parent_ids repo) + 2) _ Hinv)
    as [?|(Y & Hlen & Hnd & Hall)]; [done|].
  exfalso.
  assert (Hsub : list_to_set Y ⊆ ({[s]} ∪ parent_ids repo : gset N)).
  { intros y Hy%elem_of_list_to_set. destruct (Hall y Hy) as [_ [->|?]];
      set_solver. }
  apply subseteq_size in Hsub.
  rewrite size_list_to_set in Hsub by done.
  pose proof (size_union_alt ({[s]} : gset N) (parent_ids repo)) as Hsize.
  rewrite size_singleton in Hsize.
  assert (size (parent_ids repo ∖ {[s]}) ≤ size (parent_ids repo))%nat
    by (apply subseteq_size; set_solver).
  lia.
Qed.

Lemma drain_mono fuel fuel' w Y :
  drain fuel w = Some Y → (fuel ≤ fuel')%nat → drain fuel' w = Some Y.
Proof.
  revert fuel' w Y. induction fuel as [|fuel IH]; intros fuel' w Y; [done|].
  intros Hdrain Hle. destruct fuel' as [|fuel']; [lia|]. simpl in *.
  destruct (next_commit _ _ _) as [[c w']|]; [|done].
  destruct (drain fuel w') as [Y'|] eqn:Hd; [|done].
  by rewrite (IH fuel' w' Y') by (done || lia).
Qed.

(** [ancestors] is reachability. *)
Lemma elem_of_ancestors c x : x ∈ ancestors repo c ↔ reachable repo c x.
Proof.
  unfold ancestors.
  assert (Hinv : walk_inv repo ∅ c {| walked := repo; visited := ∅; pending := [c] |})
    by (apply walk_inv_start; intros v p Hv; set_solver).
  destruct (drain_ends _ _ _ Hinv) as [Y HY]. rewrite HY. simpl.
  destruct (drain_spec _ _ _ _ _ Hinv HY) as (_ & _ & Hall). simpl in Hall.
  rewrite elem_of_list_to_set. specialize (Hall x). set_solver.
Qed.

Lemma ancestors_closed c : closed repo (ancestors repo c).
Proof.
  intros v p Hv Hp. apply elem_of_ancestors. apply elem_of_ancestors in Hv.
  by eapply reachable_snoc.
Qed.

Lemma elem_of_difference_reachable excl incl x :
  x ∈ difference repo excl incl ↔
  reachable repo incl x ∧ ¬ reachable repo excl x.
Proof.
  unfold difference. by rewrite elem_of_difference, !elem_of_ancestors.
Qed.

(** The walk of a range: from the include endpoint, with the ancestors of
    the exclude endpoint marked, it hands out the commits of the difference,
    each once. *)
Lemma drain_range excl incl :
  ∃ Y, drain (size (parent_ids repo) + 2)
         {| walked := repo; visited := ancestors repo excl ∪ ∅;
            pending := [incl] |} = Some Y ∧
       length Y = size (difference repo excl incl).
Proof.
  assert (Hinv : walk_inv repo (ancestors repo excl) incl
            {| walked := repo; visited := ancestors repo excl ∪ ∅;
               pending := [incl] |}).
  { rewrite (right_id_L ∅ (∪)). apply walk_inv_start, ancestors_closed. }
  destruct (drain_ends _ _ _ Hinv) as [Y HY]. exists Y. split; [done|].
  destruct (drain_spec _ _ _ _ _ Hinv HY) as (Hnd & Hfresh & Hall).
  simpl in Hfresh, Hall.
  rewrite <- (size_list_to_set (C:=gset N) Y) by done. f_equal.
  apply set_eq. intros x.
  rewrite elem_of_list_to_set, elem_of_difference_reachable.
  specialize (Hall x). specialize (Hfresh x).
  rewrite <- (elem_of_ancestors excl x). set_solver.
Qed.

End Walk.

(** * CountRange on the store *)

Section StoreCount.
Import Store.
#[local] Existing Instance libgit2.

(** The loop of CountRange adds to [res] the number of commits the walker
    hands out, as long as the sum fits [size_t]. *)
Lemma CountRange_loop_drain fuel range (h : nat) wk Y res logs st :
  drain fuel wk = Some Y →
  walkers st !! h = Some wk →
  0 ≤ res → res + Z.of_nat (length Y) < 2 ^ SIZE_WIDTH →
  ∃ st',
    CountRange_loop fuel range h res (Build_World logs st)
    = (Returned (Some (res + Z.of_nat (length Y))), Build_World logs st').
Proof.
  revert wk Y res st. induction fuel as [|fuel IH]; intros wk Y res st; [done|].
  simpl. intros Hdrain Hh Hres Hfit. run. unfold revwalk_next. rewrite Hh.
  destruct (next_commit _ _ _) as [[c w']|] eqn:Hnext; simpl.
  - destruct (drain fuel w') as [Y'|] eqn:Hd; [|done].
    injection Hdrain as <-. simpl length in Hfit.
    assert (Hincr : size_t_incr res = res + 1)
      by (unfold size_t_incr; apply Z.mod_small; lia).
    rewrite Hincr.
    destruct (IH w' Y' (res + 1)
                {| last_error := last_error st;
                   walkers := <[h:=w']> (walkers st) |})
      as [st' Hloop]; [done|apply lookup_insert_eq|lia|lia|].
    exists st'. rewrite Hloop. do 3 f_equal. simpl length. lia.
  - injection Hdrain as <-. exists st. do 3 f_equal. simpl. lia.
Qed.

(** C1. CountRange on a range "exclude..include" whose endpoints resolve to
    the commits [e] and [i]: the commits of [difference repo e i] are those
    reachable from [i] along parent edges ([i] included) and not reachable
    from [e], and CountRange returns the size of this set, so each commit
    counts once however many paths lead to it.  The count fits [size_t];
    the loop ends, for every bound on its iterations from some bound on,
    and nothing is logged. *)
Theorem CountRange_counts_difference (repo : repository)
    (range excl incl : string) (e i : N) :
  parse_range range = Some (excl, incl) →
  revs repo !! excl = Some e →
  revs repo !! incl = Some i →
  Z.of_nat (size (difference repo e i)) < 2 ^ SIZE_WIDTH →
  (∀ c, c ∈ difference repo e i ↔ reachable repo i c ∧ ¬ reachable repo e c) ∧
  ∃ fuel, ∀ f w, (fuel ≤ f)%nat →
    fst (CountRange f repo range w)
      = Returned (Some (Z.of_nat (size (difference repo e i)))) ∧
    logged (snd (CountRange f repo range w)) = logged w.
Proof.
  intros Hparse He Hi Hfit. split; [apply elem_of_difference_reachable|].
  destruct (drain_range repo e i) as (Y & HY & Hlen).
  exists (size (parent_ids repo) + 2)%nat. intros f [logs st] Hf.
  eapply drain_mono in HY; [|exact Hf].
  unfold CountRange, ON_SCOPE_EXIT, VERIFY. run.
  unfold revwalk_push_range. simpl. rewrite lookup_insert_eq. simpl.
  rewrite Hparse, He, Hi. simpl.
  match goal with
  | |- context [CountRange_loop f range ?h 0 (Build_World ?l ?s)] =>
      destruct (CountRange_loop_drain f range h _ Y 0 l s HY) as [st' Hloop];
        [apply lookup_insert_eq|lia|lia|]
  end.
  simpl in Hloop. rewrite Hloop. simpl. by rewrite Hlen.
Qed.

End StoreCount.

(** * The queries on the sample repository *)

Section SampleRuns.
Import Store.
#[local] Existing Instance libgit2.

(** On the sample repository [origin/main] has three commits that [main]
    has not: 6, 7 and the merge 8. *)
Lemma CountRange_counts_difference_witness :
  ∃ fuel, ∀ f w, (fuel ≤ f)%nat →
    fst (CountRange f Sample.repo "main..origin/main" w) = Returned (Some 3).
Proof.
  destruct (CountRange_counts_difference Sample.repo "main..origin/main"
              "main" "origin/main" 5 8) as [_ [fuel Hrun]].
  - vm_compute. reflexivity.
  - vm_compute. reflexivity.
  - vm_compute. reflexivity.
  - vm_compute. reflexivity.
  - exists fuel. intros f w Hf. destruct (Hrun f w Hf) as [Hres _].
    rewrite Hres. vm_compute. reflexivity.
Defined.

(** The sample repository is in the middle of an interactive rebase. *)
Lemma RepoState_total_witness : RepoState Sample.repo = "rebase-i".
Proof.
  destruct (RepoState_total (H:=libgit2) Sample.repo) as [Htag _].
  apply (Htag GIT_REPOSITORY_STATE_REBASE_INTERACTIVE); [|reflexivity].
  unfold state_tags. set_solver.
Defined.

(** In a repository just initialised, the local branch of HEAD is the name
    after "refs/heads/" in its target. *)
Lemma LocalBranchName_cases_witness :
  LocalBranchName (Some Sample.HEAD_unborn) Sample.start
    = (Returned "main", Sample.start).
Proof.
  destruct (LocalBranchName_cases (H:=libgit2) Sample.HEAD_unborn Sample.start)
    as (_ & Hsym & _).
  destruct (Hsym eq_refl "refs/heads/main" eq_refl) as [Hsuffix _].
  by apply Hsuffix.
Defined.

(** The scenarios of the sample repository: ahead and behind counts, equal
    endpoints, and the branch and remote of HEAD. *)
Example CountRange_ahead :
  fst (CountRange 20 Sample.repo "origin/main..main" Sample.start)
    = Returned (Some 2).
Proof. vm_compute. reflexivity. Qed.

Example CountRange_behind :
  fst (CountRange 20 Sample.repo "main..origin/main" Sample.start)
    = Returned (Some 3).
Proof. vm_compute. reflexivity. Qed.

Example CountRange_same_endpoints :
  fst (CountRange 20 Sample.repo "main..HEAD" Sample.start) = Returned (Some 0).
Proof. vm_compute. reflexivity. Qed.

Example CountRange_out_of_fuel :
  fst (CountRange 3 Sample.repo "main..origin/main" Sample.start) = Returned None.
Proof. vm_compute. reflexivity. Qed.

Example Head_sample :
  fst (Head Sample.repo Sample.start) = Returned (Some Sample.main).
Proof. vm_compute. reflexivity. Qed.

Example Upstream_sample :
  fst (Upstream Sample.main Sample.start) = Returned (Some Sample.origin_main).
Proof. vm_compute. reflexivity. Qed.

Example LocalBranchName_sample :
  fst (LocalBranchName (Some Sample.main) Sample.start) = Returned "main".
Proof. vm_compute. reflexivity. Qed.

Example GetRemote_local_branch :
  fst (GetRemote Sample.repo Sample.main Sample.start) = Returned Remote_empty.
Proof. vm_compute. reflexivity. Qed.

(** In a repository just initialised, Head is the symbolic HEAD itself. *)
Lemma Head_resolution_witness :
  fst (Head Sample.unborn Sample.start) = Returned (Some Sample.HEAD_unborn).
Proof.
  destruct (Head_resolution (H:=libgit2) Sample.unborn Sample.start 0 Sample.HEAD_unborn
              Sample.idle) as (_ & Hres & _).
  - vm_compute. reflexivity.
  - destruct (Hres eq_refl GIT_ENOTFOUND (no_reference Sample.unborn)
                (snd (fail_code GIT_ENOTFOUND 4
                        "reference 'refs/heads/main' not found" Sample.idle)))
      as [Hsym _].
    + vm_compute. reflexivity.
    + apply Hsym. discriminate.
Defined.

(** HEAD is not a local branch: the upstream lookup fails with an error of
    class GIT_ERROR_INVALID and Upstream is null. *)
Lemma Upstream_outcomes_witness :
  fst (Upstream Sample.HEAD Sample.start) = Returned None.
Proof.
  pose (l1 := snd (fail_code (-1) GIT_ERROR_INVALID
                     "reference 'HEAD' is not a local branch." Sample.idle)).
  destruct (Upstream_outcomes (H:=libgit2) Sample.HEAD Sample.start (-1)
              (no_reference Sample.repo) l1) as (_ & _ & Hfail).
  - vm_compute. reflexivity.
  - destruct Hfail as (Hinv & _ & _); [discriminate..|].
    rewrite (Hinv _ eq_refl eq_refl). reflexivity.
Defined.

(** The remote of [origin/main] is "origin" and its branch there "main". *)
Lemma GetRemote_outcomes_witness :
  ∃ r, fst (GetRemote Sample.repo Sample.origin_main Sample.start) = Returned r ∧
       name r = "origin" ∧ name r +:+ "/" +:+ branch r = "origin/main".
Proof.
  destruct (GetRemote_outcomes (H:=libgit2) Sample.repo Sample.origin_main Sample.start
              0 "origin/main" Sample.idle 0 {| ptr := "origin" |} Sample.idle)
    as (_ & _ & Hok).
  - vm_compute. reflexivity.
  - vm_compute. reflexivity.
  - destruct (Hok eq_refl eq_refl) as [Hpre _]. apply Hpre.
    vm_compute. reflexivity.
Defined.

(** The URL of the remote of [origin/main]. *)
Lemma RemoteUrl_outcomes_witness :
  fst (RemoteUrl Sample.repo Sample.origin_main Sample.start)
    = Returned "https://example.org/repo.git".
Proof.
  destruct (RemoteUrl_outcomes (H:=libgit2) Sample.repo Sample.origin_main Sample.start
              0 {| ptr := "origin" |} Sample.idle 0 Sample.origin Sample.idle)
    as (_ & Hok).
  - vm_compute. reflexivity.
  - vm_compute. reflexivity.
  - destruct (Hok eq_refl) as (_ & _ & Hurl & _). by apply Hurl.
Defined.

(** [main] is not a remote-tracking branch: the lookup of its remote name
    fails with an error that is not GIT_ENOTFOUND, and RemoteUrl is the empty
    string with nothing logged. *)
Lemma RemoteUrl_remote_name_failure_witness :
  RemoteUrl Sample.repo Sample.main Sample.start
    = (Returned "",
       after Sample.start
         (snd (fail_code (-1) GIT_ERROR_INVALID
                 "reference 'refs/heads/main' is not a remote branch."
                 Sample.idle))).
Proof.
  destruct (RemoteUrl_remote_name_failure (H:=libgit2) Sample.repo Sample.main Sample.start
              (-1) {| ptr := "" |}
              (snd (fail_code (-1) GIT_ERROR_INVALID
                      "reference 'refs/heads/main' is not a remote branch."
                      Sample.idle))) as [Hfail _].
  - vm_compute. reflexivity.
  - apply Hfail. discriminate.
Defined.

(** With a library that gives no target for the symbolic HEAD, its local
    branch name is empty. *)
Lemma LocalBranchName_null_target_witness :
  LocalBranchName (H:=libgit2_no_target) (Some Sample.HEAD_unborn)
    (Build_World (H:=libgit2_no_target) [] Sample.idle)
  = (Returned "", Build_World (H:=libgit2_no_target) [] Sample.idle).
Proof.
  apply (LocalBranchName_null_target (H:=libgit2_no_target)); reflexivity.
Defined.

(** The range "nosuch..main" has an endpoint that is no revision of the
    sample repository: CountRange throws after one error line. *)
Lemma CountRange_unresolved_range_witness :
  CountRange 20 Sample.repo "nosuch..main" Sample.start =
    (Thrown,
     Build_World
       [{| severity := ERROR;
           text := "!git_revwalk_push_range(walk, range.c_str()): "
                   +:+ "revspec 'nosuch' not found" |}]
       (snd (fail_code GIT_ENOTFOUND 4 "revspec 'nosuch' not found" Sample.idle))).
Proof.
  rewrite (CountRange_unresolved_range (H:=libgit2) 20 Sample.repo "nosuch..main"
             Sample.start (fresh (∅ : gset nat))
             (snd (revwalk_new Sample.repo Sample.idle)) GIT_ENOTFOUND
             (snd (fail_code GIT_ENOTFOUND 4 "revspec 'nosuch' not found"
                     (snd (revwalk_new Sample.repo Sample.idle))))).
  - vm_compute. reflexivity.
  - vm_compute. reflexivity.
  - vm_compute. reflexivity.
  - discriminate.
Defined.

(** C8 as stated fails on the sample repository: the endpoint "nosuch" of
    the range "nosuch..main" does not resolve and CountRange throws, but the
    only line it logs does not mention the range expression. *)
Lemma CountRange_unresolved_range_not_logged :
  parse_range "nosuch..main" = Some ("nosuch", "main") ∧
  revs Sample.repo !! "nosuch" = None ∧
  fst (CountRange 20 Sample.repo "nosuch..main" Sample.start) = Thrown ∧
  logged (snd (CountRange 20 Sample.repo "nosuch..main" Sample.start)) =
    [{| severity := ERROR;
        text := "!git_revwalk_push_range(walk, range.c_str()): revspec 'nosuch' not found" |}] ∧
  ¬ ∃ line,
      line ∈ logged (snd (CountRange 20 Sample.repo "nosuch..main" Sample.start)) ∧
      mentions "nosuch..main" line = true.
Proof.
  split_and!; [vm_compute; reflexivity..|].
  intros (line & Hin & Hm). revert Hm.
  assert (Hlog : logged (snd (CountRange 20 Sample.repo "nosuch..main" Sample.start)) =
    [{| severity := ERROR;
        text := "!git_revwalk_push_range(walk, range.c_str()): revspec 'nosuch' not found" |}])
    by (vm_compute; reflexivity).
  rewrite Hlog in Hin. apply list_elem_of_singleton in Hin as ->.
  vm_compute. discriminate.
Qed.

End SampleRuns.

(** * More of the queries, for any behaviour of the library *)

Section WalkProperties.
Context `{LibGit2}.

(** [k] increments of a [size_t] that starts at 0 leave [k] modulo
    2^64. *)
Lemma size_t_incr_iter k :
  Nat.iter k size_t_incr 0 = Z.of_nat k mod 2 ^ SIZE_WIDTH.
Proof.
  induction k as [|k IH]; [reflexivity|].
  rewrite Nat.iter_succ, IH. unfold size_t_incr.
  rewrite Zplus_mod_idemp_l. f_equal. lia.
Qed.

(** While the walker hands out commits, the loop only counts them. *)
Lemma CountRange_loop_steps k fuel range walk res logs l l3 :
  handed_out k walk l = Some l3 →
  CountRange_loop (k + fuel) range walk res {| logged := logs; lib := l |}
  = CountRange_loop fuel range walk (Nat.iter k size_t_incr res)
      {| logged := logs; lib := l3 |}.
Proof.
  revert res l. induction k as [|k IH]; intros res l.
  - by intros [= ->].
  - rewrite Nat.iter_succ_r. simpl. run.
    destruct (git_revwalk_next walk l) as [[rc oid] l'].
    case Z.eqb_spec; [intros _|done]. apply IH.
Qed.

(** The loop is never aborted; it adds nothing to the log when it returns
    and one error line when it throws. *)
Lemma CountRange_loop_log fuel range walk res w :
  quiet_or_one_error w (CountRange_loop fuel range walk res w).
Proof.
  revert res w. induction fuel as [|fuel IH]; intros res w; [done|].
  simpl. run. destruct (git_revwalk_next walk (lib w)) as [[rc oid] l'].
  case Z.eqb_spec; [intros _|intros _].
  - apply (IH (size_t_incr res) {| logged := logged w; lib := l' |}).
  - case Z.eqb_spec; intros _; [done|]. unfold quiet_or_one_error. simpl.
    by eexists.
Qed.

(** X1. CountRange returns the number of commits the walker hands out
    before it reports GIT_ITEROVER, modulo 2^64: it looks at no commit id
    and logs nothing, and the walker is released after the last step. *)
Theorem CountRange_counts_steps (fuel : nat) (repo : git_repository)
    (range : string) (w : World) (walk : git_revwalk)
    (l1 l2 l3 l4 : lib_state) (k : nat) (oid : git_oid) :
  git_revwalk_new repo (lib w) = ((0, walk), l1) →
  git_revwalk_push_range walk range l1 = (0, l2) →
  handed_out k walk l2 = Some l3 →
  git_revwalk_next walk l3 = ((GIT_ITEROVER, oid), l4) →
  (k < fuel)%nat →
  CountRange fuel repo range w =
    (Returned (Some (Z.of_nat k mod 2 ^ SIZE_WIDTH)),
     {| logged := logged w; lib := git_revwalk_free walk l4 |}).
Proof.
  intros Hnew Hpush Hsteps Hover Hfuel.
  unfold CountRange, ON_SCOPE_EXIT, VERIFY. run. rewrite Hnew. simpl.
  rewrite Hpush. simpl.
  replace fuel with (k + S (fuel - S k))%nat by lia.
  rewrite (CountRange_loop_steps _ _ _ _ _ _ _ _ Hsteps).
  simpl. run. rewrite Hover. simpl. by rewrite size_t_incr_iter.
Qed.

(** X2. When a step of the walk fails after [k] commits, with a code that is
    not GIT_ITEROVER, CountRange throws: the count is dropped, the one line
    logged has the range expression and the message of the library, and the
    walker is released. *)
Theorem CountRange_walk_failure (fuel : nat) (repo : git_repository)
    (range : string) (w : World) (walk : git_revwalk)
    (l1 l2 l3 l4 : lib_state) (k : nat) (rc : Z) (oid : git_oid) :
  git_revwalk_new repo (lib w) = ((0, walk), l1) →
  git_revwalk_push_range walk range l1 = (0, l2) →
  handed_out k walk l2 = Some l3 →
  git_revwalk_next walk l3 = ((rc, oid), l4) →
  rc ≠ 0 → rc ≠ GIT_ITEROVER →
  (k < fuel)%nat →
  CountRange fuel repo range w =
    (Thrown,
     {| logged := logged w ++
          [{| severity := ERROR;
              text := "git_revwalk_next: " +:+ range +:+ ": "
                      +:+ GitError_text l4 |}];
        lib := git_revwalk_free walk l4 |}).
Proof.
  intros Hnew Hpush Hsteps Hnext H0 Hover Hfuel.
  unfold CountRange, ON_SCOPE_EXIT, VERIFY. run. rewrite Hnew. simpl.
  rewrite Hpush. simpl.
  replace fuel with (k + S (fuel - S k))%nat by lia.
  rewrite (CountRange_loop_steps _ _ _ _ _ _ _ _ Hsteps).
  simpl. run. rewrite Hnext. simpl.
  apply Z.eqb_neq in H0, Hover. by rewrite H0, Hover.
Qed.

(** X3. Whatever the library does, CountRange is not aborted; it adds
    nothing to the log when it returns, and exactly one error line when it
    throws. *)
Theorem CountRange_log (fuel : nat) (repo : git_repository)
    (range : string) (w : World) :
  quiet_or_one_error w (CountRange fuel repo range w).
Proof.
  unfold CountRange, ON_SCOPE_EXIT, VERIFY. run.
  destruct (git_revwalk_new repo (lib w)) as [[rc walk] l1]. simpl.
  case Z.eqb_spec; intros _; simpl;
    [|unfold quiet_or_one_error; simpl; by eexists].
  destruct (git_revwalk_push_range walk range l1) as [rc2 l2]. simpl.
  case Z.eqb_spec; intros _; simpl;
    [|unfold quiet_or_one_error; simpl; by eexists].
  pose proof (CountRange_loop_log fuel range walk 0
                {| logged := logged w; lib := l2 |}) as Hloop.
  unfold quiet_or_one_error in *.
  by destruct (CountRange_loop fuel range walk 0 _) as [[n| |] w'].
Qed.

(** X4. CountRange releases the walker on every path on which the library
    created one, also when it throws: the last thing done to the library is
    the call of git_revwalk_free.  When no walker was created none is
    released. *)
Theorem CountRange_releases_walker (fuel : nat) (repo : git_repository)
    (range : string) (w : World)
    (rc : Z) (walk : git_revwalk) (l1 : lib_state) :
  git_revwalk_new repo (lib w) = ((rc, walk), l1) →
  (rc = 0 →
     ∃ l', lib (snd (CountRange fuel repo range w)) = git_revwalk_free walk l') ∧
  (rc ≠ 0 → lib (snd (CountRange fuel repo range w)) = l1).
Proof.
  intros Hnew. unfold CountRange, ON_SCOPE_EXIT, VERIFY. run. rewrite Hnew.
  simpl. split.
  - intros ->. simpl.
    destruct (git_revwalk_push_range walk range l1) as [rc2 l2]. simpl.
    case Z.eqb_spec; intros _; simpl; [|by eexists].
    pose proof (CountRange_loop_log fuel range walk 0
                  {| logged := logged w; lib := l2 |}) as Hloop.
    unfold quiet_or_one_error in Hloop.
    destruct (CountRange_loop fuel range walk 0 _) as [[n| |] w'];
      simpl in *; [by eexists..|done].
  - intros Hrc. apply Z.eqb_neq in Hrc. by rewrite Hrc.
Qed.

End WalkProperties.

Section ReleaseProperties.
Context `{LibGit2}.

(** X5. RemoteUrl, once it has the name of the remote: the name buffer is
    released on every path, also the one that throws; the remote is
    released exactly when it was found; a line is logged, with the message
    of the library, only on the path that throws. *)
Theorem RemoteUrl_releases (repo : git_repository) (ref : git_reference)
    (w : World) (remote_name : git_buf) (l1 : lib_state)
    (rc : Z) (remote : git_remote) (l2 : lib_state) :
  git_branch_remote_name repo (git_reference_name ref) (lib w)
    = ((0, remote_name), l1) →
  git_remote_lookup repo (ptr remote_name) l1 = ((rc, remote), l2) →
  (rc = 0 →
     snd (RemoteUrl repo ref w) =
       {| logged := logged w;
          lib := git_buf_free remote_name (git_remote_free remote l2) |}) ∧
  (rc = GIT_ENOTFOUND ∨ rc = GIT_EINVALIDSPEC →
     snd (RemoteUrl repo ref w) =
       {| logged := logged w; lib := git_buf_free remote_name l2 |}) ∧
  (rc ≠ 0 → rc ≠ GIT_ENOTFOUND → rc ≠ GIT_EINVALIDSPEC →
     snd (RemoteUrl repo ref w) =
       {| logged := logged w ++
            [{| severity := ERROR;
                text := "git_remote_lookup: " +:+ GitError_text l2 |}];
          lib := git_buf_free remote_name l2 |}).
Proof.
  intros Hname Hlookup. unfold RemoteUrl, ON_SCOPE_EXIT. run.
  rewrite Hname. simpl. rewrite Hlookup. simpl. split_and!.
  - by intros ->.
  - by intros [-> | ->].
  - intros H0 Hnf Hinv. apply Z.eqb_neq in H0, Hnf, Hinv.
    by rewrite H0, Hnf, Hinv.
Qed.

(** X6. GetRemote, once it has the branch name and the remote name: when the
    remote name does not begin the branch name it throws on the first
    check, when it does and the next byte is not '/' (or the branch name
    ends there) it throws on the second; the line logged names the check
    that failed and carries no message.  On these paths and on the
    returning one the name buffer is released. *)
Theorem GetRemote_failed_check (repo : git_repository) (ref : git_reference)
    (w : World) (br : string) (l1 : lib_state)
    (remote : git_buf) (l2 : lib_state) :
  git_branch_name ref (lib w) = ((0, br), l1) →
  git_branch_remote_name repo (git_reference_name ref) l1
    = ((0, remote), l2) →
  (String.prefix (ptr remote) br = false →
     GetRemote repo ref w =
       (Thrown,
        {| logged := logged w ++
             [{| severity := ERROR;
                 text := "std::strstr(branch, remote.ptr) == branch: " |}];
           lib := git_buf_free remote l2 |})) ∧
  (String.prefix (ptr remote) br = true →
   char_at br (String.length (ptr remote)) ≠ "/"%char →
     GetRemote repo ref w =
       (Thrown,
        {| logged := logged w ++
             [{| severity := ERROR; text := "branch[remote.size] == '/': " |}];
           lib := git_buf_free remote l2 |})) ∧
  (String.prefix (ptr remote) br = true →
   char_at br (String.length (ptr remote)) = "/"%char →
     snd (GetRemote repo ref w) =
       {| logged := logged w; lib := git_buf_free remote l2 |}).
Proof.
  intros Hname Hremote. unfold GetRemote, ON_SCOPE_EXIT. run.
  rewrite Hname. simpl. rewrite Hremote. simpl. unfold VERIFY, buf_size.
  pose proof (strstr_start br (ptr remote)) as Hstart.
  split_and!.
  - intros Hpre. case bool_decide_reflect; [|done].
    intros Hyes%Hstart. congruence.
  - intros Hpre%Hstart Hsep. rewrite bool_decide_eq_true_2 by done.
    apply Ascii.eqb_neq in Hsep. by rewrite Hsep.
  - intros Hpre%Hstart Hsep. rewrite bool_decide_eq_true_2 by done.
    by rewrite Hsep.
Qed.

(** X7. Head, once HEAD is found: the reference looked up is released
    exactly when it is not the one returned.  When the resolution succeeds
    it is released and nothing is logged; when it fails it is returned
    unreleased and one line at level INFO is logged. *)
Theorem Head_releases (repo : git_repository) (w : World)
    (symbolic : git_reference) (l1 : lib_state)
    (rc : Z) (direct : git_reference) (l2 : lib_state) :
  git_reference_lookup repo "HEAD" (lib w) = ((0, symbolic), l1) →
  git_reference_resolve symbolic l1 = ((rc, direct), l2) →
  (rc = 0 →
     Head repo w =
       (Returned (Some direct),
        {| logged := logged w; lib := git_reference_free symbolic l2 |})) ∧
  (rc ≠ 0 →
     Head repo w =
       (Returned (Some symbolic),
        {| logged := logged w ++
             [{| severity := INFO; text := "Empty git repo (no HEAD)" |}];
           lib := l2 |})).
Proof.
  intros Hlookup Hresolve. unfold Head. run. rewrite Hlookup. simpl.
  rewrite Hresolve. simpl. split.
  - by intros ->.
  - intros Hrc. apply Z.eqb_neq in Hrc. by rewrite Hrc.
Qed.

(** X8. Whatever LocalBranchName returns for a reference is the empty
    string, the short name of a direct reference that is a branch, or what
    follows "refs/heads/" in the target of a symbolic reference; and when it
    returns it has logged nothing and called nothing that changes the
    library. *)
Theorem LocalBranchName_sound (ref : git_reference) (w w' : World)
    (b : string) :
  LocalBranchName (Some ref) w = (Returned b, w') →
  w' = w ∧
  (b = "" ∨
   (git_reference_type ref = GIT_REFERENCE_DIRECT ∧
    git_reference_is_branch ref ≠ 0 ∧ b = git_reference_shorthand ref) ∨
   (git_reference_type ref = GIT_REFERENCE_SYMBOLIC ∧
    git_reference_symbolic_target ref = Some ("refs/heads/" +:+ b))).
Proof.
  unfold LocalBranchName, CHECK. run.
  case Z.eqb_spec; [intros Hd|intros _].
  - case Z.eqb_spec; simpl; [intros _ [= <- <-]; auto|].
    intros Hb [= <- <-]. split; [done|]. right. left. done.
  - case Z.eqb_spec; [intros Hs|intros _; done].
    destruct (git_reference_symbolic_target ref) as [target|];
      [|intros [= <- <-]; auto].
    case Nat.ltb_spec; [intros _ [= <- <-]; auto|intros Hlen].
    case Z.eqb_spec; simpl; [intros Hcmp|intros _ [= <- <-]; auto].
    intros [= <- <-]. split; [done|]. right. right. split; [done|].
    apply (memcmp_prefix kHeadPrefix) in Hcmp;
      [|unfold sizeof_kHeadPrefix in Hlen; lia].
    f_equal. apply (prefix_advance kHeadPrefix _ Hcmp).
Qed.

End ReleaseProperties.

Section UnbornBranch.
Context `{LibGit2}.

(** X9. Head and LocalBranchName compose on a branch without commits: when
    HEAD is found, cannot be resolved, and is symbolic with the target
    "refs/heads/" followed by [b], the branch name of what Head returns is
    [b]; the only line logged is the one of Head at level INFO. *)
Theorem HeadBranchName_unborn (repo : git_repository) (w : World)
    (symbolic : git_reference) (l1 : lib_state)
    (rc : Z) (direct : git_reference) (l2 : lib_state) (b : string) :
  git_reference_lookup repo "HEAD" (lib w) = ((0, symbolic), l1) →
  git_reference_resolve symbolic l1 = ((rc, direct), l2) →
  rc ≠ 0 →
  git_reference_type symbolic = GIT_REFERENCE_SYMBOLIC →
  git_reference_symbolic_target symbolic = Some ("refs/heads/" +:+ b) →
  HeadBranchName repo w =
    (Returned b,
     {| logged := logged w ++
          [{| severity := INFO; text := "Empty git repo (no HEAD)" |}];
        lib := l2 |}).
Proof.
  intros Hlookup Hresolve Hrc Htype Htarget.
  unfold HeadBranchName, Head. run. rewrite Hlookup. simpl.
  rewrite Hresolve. simpl. apply Z.eqb_neq in Hrc. rewrite Hrc. simpl.
  unfold LocalBranchName, CHECK. run. rewrite Htype, Htarget. simpl.
  by destruct b.
Qed.

End UnbornBranch.

Section RepositoryProperties.
Context `{LibGit2Repo}.

(** X10. OpenRepo: a directory in which the library finds no repository
    (GIT_ENOTFOUND) is not an error: the result is null and nothing is
    logged.  A repository that is found is returned.  Any other code throws
    after one error line with the printed directory and the message of the
    library. *)
Theorem OpenRepo_outcomes (dir : string) (w : World)
    (rc : Z) (repo : git_repository) (l1 : lib_state) :
  git_repository_open_ext dir GIT_REPOSITORY_OPEN_FROM_ENV None (lib w)
    = ((rc, repo), l1) →
  (rc = 0 → OpenRepo dir w = (Returned (Some repo), after w l1)) ∧
  (rc = GIT_ENOTFOUND → OpenRepo dir w = (Returned None, after w l1)) ∧
  (rc ≠ 0 → rc ≠ GIT_ENOTFOUND →
     OpenRepo dir w =
       (Thrown,
        {| logged := logged w ++
             [{| severity := ERROR;
                 text := "git_repository_open_ext: " +:+ Print dir +:+ ": "
                         +:+ GitError_text l1 |}];
           lib := l1 |})).
Proof.
  intros Hopen. unfold OpenRepo. run. rewrite Hopen. simpl. split_and!.
  - by intros ->.
  - by intros ->.
  - intros Hrc Hnf. apply Z.eqb_neq in Hrc, Hnf. by rewrite Hrc, Hnf.
Qed.

(** The callback of NumStashes never stops the iteration: over a stash
    list it returns 0 and has counted every entry. *)
Lemma stash_iterate_count entries index payload :
  stash_iterate NumStashes_cb entries index payload
  = (0, Nat.iter (length entries) size_t_incr payload).
Proof.
  revert index payload.
  induction entries as [|[message stash_id] entries IH]; intros index payload;
    [done|].
  simpl length. rewrite Nat.iter_succ_r. simpl. apply IH.
Qed.

(** X11. NumStashes: when the library runs the callback over the stash list
    as [stash_iterate] does, the result is the number of entries, modulo
    2^64, and nothing is logged: the callback never makes the iteration stop
    early. *)
Theorem NumStashes_counts (repo : git_repository) (w : World)
    (entries : list (string * git_oid)) (l1 : lib_state) :
  git_stash_foreach repo NumStashes_cb 0 (lib w)
    = (stash_iterate NumStashes_cb entries 0 0, l1) →
  NumStashes repo w
    = (Returned (Z.of_nat (length entries) mod 2 ^ SIZE_WIDTH), after w l1).
Proof.
  intros Hforeach. unfold NumStashes, VERIFY. run. rewrite Hforeach.
  rewrite stash_iterate_count. simpl. by rewrite size_t_incr_iter.
Qed.

(** X12. NumStashes: when the iteration of the library fails, the entries
    counted so far are dropped: NumStashes throws after one error line with
    the message of the library. *)
Theorem NumStashes_failure (repo : git_repository) (w : World)
    (rc res : Z) (l1 : lib_state) :
  git_stash_foreach repo NumStashes_cb 0 (lib w) = ((rc, res), l1) →
  rc ≠ 0 →
  NumStashes repo w =
    (Thrown,
     {| logged := logged w ++
          [{| severity := ERROR;
              text := "!git_stash_foreach(repo, cb, &res): "
                      +:+ GitError_text l1 |}];
        lib := l1 |}).
Proof.
  intros Hforeach Hrc. unfold NumStashes, VERIFY. run. rewrite Hforeach.
  simpl. apply Z.eqb_neq in Hrc. by rewrite Hrc.
Qed.

End RepositoryProperties.

(** * More of CountRange on the store *)

Section StoreRuns.
Import Store.
#[local] Existing Instance libgit2.

Lemma reachable_trans repo a b c :
  reachable repo a b → reachable repo b c → reachable repo a c.
Proof.
  induction 1 as [a|a p b Hp _ IH]; [done|].
  intros Hbc. eapply reachable_parent; [done|by apply IH].
Qed.

(** On the store, a range whose endpoints resolve is counted within a fuel
    of two more than the number of parents. *)
Lemma CountRange_store_count repo range excl incl e i f w :
  parse_range range = Some (excl, incl) →
  revs repo !! excl = Some e →
  revs repo !! incl = Some i →
  Z.of_nat (size (difference repo e i)) < 2 ^ SIZE_WIDTH →
  (size (parent_ids repo) + 2 ≤ f)%nat →
  fst (CountRange f repo range w)
    = Returned (Some (Z.of_nat (size (difference repo e i)))).
Proof.
  intros Hparse He Hi Hfit Hf. destruct w as [logs st].
  destruct (drain_range repo e i) as (Y & HY & Hlen).
  eapply drain_mono in HY; [|exact Hf].
  unfold CountRange, ON_SCOPE_EXIT, VERIFY. run.
  unfold revwalk_push_range. simpl. rewrite lookup_insert_eq. simpl.
  rewrite Hparse, He, Hi. simpl.
  match goal with
  | |- context [CountRange_loop f range ?h 0 (Build_World ?l ?s)] =>
      destruct (CountRange_loop_drain f range h _ Y 0 l s HY) as [st' Hloop];
        [apply lookup_insert_eq|lia|lia|]
  end.
  simpl in Hloop. rewrite Hloop. simpl. by rewrite Hlen.
Qed.

(** X13. On the store, for a range whose endpoints resolve to [e] and [i]
    and whose count fits [size_t]: CountRange returns 0 exactly when [i] is
    [e] or an ancestor of [e], that is when the include side has nothing
    the exclude side lacks. *)
Theorem CountRange_zero_iff (repo : repository)
    (range excl incl : string) (e i : N) :
  parse_range range = Some (excl, incl) →
  revs repo !! excl = Some e →
  revs repo !! incl = Some i →
  Z.of_nat (size (difference repo e i)) < 2 ^ SIZE_WIDTH →
  ∃ fuel, ∀ f w, (fuel ≤ f)%nat →
    (fst (CountRange f repo range w) = Returned (Some 0) ↔ reachable repo e i).
Proof.
  intros Hparse He Hi Hfit. exists (size (parent_ids repo) + 2)%nat.
  intros f w Hf.
  rewrite (CountRange_store_count repo range excl incl e i f w) by done.
  split.
  - intros [= Hsize]. apply elem_of_ancestors.
    destruct (decide (i ∈ ancestors repo e)) as [|Hout]; [done|].
    assert (Hin : i ∈ difference repo e i).
    { apply elem_of_difference_reachable. split; [constructor|].
      by rewrite <- elem_of_ancestors. }
    assert (Hempty : difference repo e i ≡ ∅) by (apply size_empty_iff; lia).
    set_solver.
  - intros Hreach.
    assert (Hempty : difference repo e i ≡ ∅).
    { apply elem_of_equiv_empty. intros c [Hic Hec]%elem_of_difference_reachable.
      apply Hec. by eapply reachable_trans. }
    apply size_empty_iff in Hempty. by rewrite Hempty.
Qed.

(** On the store a step of the walk touches no walker but its own. *)
Lemma CountRange_loop_walkers fuel range (h : nat) res w :
  delete h (walkers (lib (snd (CountRange_loop fuel range h res w))))
  = delete h (walkers (lib w)).
Proof.
  revert res w. induction fuel as [|fuel IH]; intros res [logs st]; [done|].
  simpl. run. unfold revwalk_next.
  destruct (walkers st !! h) as [wk|]; simpl; [|done].
  destruct (next_commit _ _ _) as [[c wk']|]; simpl; [|done].
  rewrite IH. simpl. apply delete_insert_eq.
Qed.

(** X14. On the store CountRange leaves no walker behind: whether it
    returns, runs out of fuel or throws, the walkers of the library are
    afterwards the ones there were before the call. *)
Theorem CountRange_leaves_no_walker (f : nat) (repo : repository)
    (range : string) (w : World) :
  walkers (lib (snd (CountRange f repo range w))) = walkers (lib w).
Proof.
  destruct w as [logs st].
  assert (Hfresh : walkers st !! fresh (dom (walkers st)) = None)
    by (apply not_elem_of_dom, is_fresh).
  unfold CountRange, ON_SCOPE_EXIT, VERIFY. run.
  set (h := fresh (dom (walkers st))) in *.
  unfold revwalk_push_range. simpl. rewrite lookup_insert_eq. simpl.
  assert (Hgone : ∀ x, delete h (<[h:=x]> (walkers st)) = walkers st)
    by (intros x; by rewrite delete_insert_eq, delete_id).
  destruct (parse_range range) as [[excl incl]|]; simpl; [|apply Hgone].
  destruct (revs repo !! excl) as [e|]; simpl; [|apply Hgone].
  destruct (revs repo !! incl) as [i|]; simpl; [|apply Hgone].
  match goal with
  | |- context [@CountRange_loop ?L f range ?h' 0 ?w0] =>
      pose proof (CountRange_loop_log f range h' 0 w0) as Hlog;
      pose proof (CountRange_loop_walkers f range h' 0 w0) as Hloop;
      unfold quiet_or_one_error in Hlog; simpl in Hloop;
      rewrite delete_insert_eq, Hgone in Hloop;
      destruct (@CountRange_loop L f range h' 0 w0) as [[n| |] w']
  end; done.
Qed.

End StoreRuns.

(** * More runs on the sample repositories *)

Section MoreSampleRuns.
Import Store.

(** The walk of "main..origin/main" hands out three commits and ends. *)
Lemma CountRange_counts_steps_witness :
  CountRange (H:=libgit2) 20 Sample.repo "main..origin/main" Sample.start
  = (Returned (Some 3), Sample.start).
Proof.
  pose (h := fresh (∅ : gset nat)).
  pose (l1 := snd (revwalk_new Sample.repo Sample.idle)).
  pose (l2 := snd (revwalk_push_range h "main..origin/main" l1)).
  pose (l3 := default l2 (handed_out (H:=libgit2) 3 h l2)).
  pose (l4 := snd (revwalk_next h l3)).
  rewrite (CountRange_counts_steps (H:=libgit2) 20 Sample.repo
             "main..origin/main" Sample.start h l1 l2 l3 l4 3 0%N).
  - vm_compute. reflexivity.
  - vm_compute. reflexivity.
  - vm_compute. reflexivity.
  - vm_compute. reflexivity.
  - vm_compute. reflexivity.
  - lia.
Defined.

(** On the history cut below commit 2, the walk of "side..tip" hands out
    3 and 2 and fails on the missing commit 1. *)
Lemma CountRange_walk_failure_witness :
  let r := CountRange (H:=Disk.checking) 20 Disk.cut "side..tip"
             (Build_World (H:=Disk.checking) [] Sample.idle) in
  fst r = Thrown ∧
  logged (snd r) =
    [{| severity := ERROR;
        text := "git_revwalk_next: side..tip: object not found - no match for id" |}].
Proof.
  pose (h := fresh (∅ : gset nat)).
  pose (l1 := snd (revwalk_new Disk.cut Sample.idle)).
  pose (l2 := snd (revwalk_push_range h "side..tip" l1)).
  pose (l3 := default l2 (handed_out (H:=Disk.checking) 2 h l2)).
  pose (l4 := snd (Disk.checked_next h l3)).
  cbv zeta.
  rewrite (CountRange_walk_failure (H:=Disk.checking) 20 Disk.cut "side..tip"
             (Build_World (H:=Disk.checking) [] Sample.idle)
             h l1 l2 l3 l4 2 (-1) 0%N).
  - split; vm_compute; reflexivity.
  - vm_compute. reflexivity.
  - vm_compute. reflexivity.
  - vm_compute. reflexivity.
  - vm_compute. reflexivity.
  - discriminate.
  - discriminate.
  - lia.
Defined.

(** The walker created for a range of the sample repository is the last
    thing released. *)
Lemma CountRange_releases_walker_witness :
  ∃ l', lib (snd (CountRange (H:=libgit2) 20 Sample.repo "main..origin/main"
                    Sample.start))
        = revwalk_free (fresh (∅ : gset nat)) l'.
Proof.
  destruct (CountRange_releases_walker (H:=libgit2) 20 Sample.repo
              "main..origin/main" Sample.start 0 (fresh (∅ : gset nat))
              (snd (revwalk_new Sample.repo Sample.idle))) as [Hok _].
  - vm_compute. reflexivity.
  - exact (Hok eq_refl).
Defined.

(** The URL of [origin/main] is returned with nothing logged. *)
Lemma RemoteUrl_releases_witness :
  snd (RemoteUrl (H:=libgit2) Sample.repo Sample.origin_main Sample.start)
  = Sample.start.
Proof.
  destruct (RemoteUrl_releases (H:=libgit2) Sample.repo Sample.origin_main
              Sample.start {| ptr := "origin" |} Sample.idle 0 Sample.origin
              Sample.idle) as [Hok _].
  - vm_compute. reflexivity.
  - vm_compute. reflexivity.
  - rewrite (Hok eq_refl). reflexivity.
Defined.

(** The remote "upstream" does not begin the branch name "origin/main": the
    first check of GetRemote fails. *)
Lemma GetRemote_failed_check_witness :
  GetRemote (H:=libgit2) Disk.renamed Disk.renamed_origin_main Sample.start
  = (Thrown,
     Build_World (H:=libgit2)
       [{| severity := ERROR;
           text := "std::strstr(branch, remote.ptr) == branch: " |}]
       Sample.idle).
Proof.
  destruct (GetRemote_failed_check (H:=libgit2) Disk.renamed
              Disk.renamed_origin_main Sample.start "origin/main" Sample.idle
              {| ptr := "upstream" |} Sample.idle) as [Hfirst _].
  - vm_compute. reflexivity.
  - vm_compute. reflexivity.
  - rewrite Hfirst; [reflexivity|]. vm_compute. reflexivity.
Defined.

(** HEAD of the sample repository resolves to [main]; nothing is logged. *)
Lemma Head_releases_witness :
  Head (H:=libgit2) Sample.repo Sample.start
  = (Returned (Some Sample.main), Sample.start).
Proof.
  destruct (Head_releases (H:=libgit2) Sample.repo Sample.start Sample.HEAD
              Sample.idle 0 Sample.main Sample.idle) as [Hok _].
  - vm_compute. reflexivity.
  - vm_compute. reflexivity.
  - rewrite (Hok eq_refl). reflexivity.
Defined.

(** The name returned for the unborn HEAD follows "refs/heads/" in its
    target. *)
Lemma LocalBranchName_sound_witness :
  reference_symbolic_target Sample.HEAD_unborn = Some ("refs/heads/" +:+ "main").
Proof.
  destruct (LocalBranchName_sound (H:=libgit2) Sample.HEAD_unborn
              Sample.start Sample.start "main") as [_ [Hempty|[Hdirect|Hsym]]].
  - vm_compute. reflexivity.
  - discriminate.
  - destruct Hdirect as [Htype _]. discriminate.
  - apply Hsym.
Defined.

(** In a repository just initialised the branch of Head is "main". *)
Lemma HeadBranchName_unborn_witness :
  fst (HeadBranchName (H:=libgit2) Sample.unborn Sample.start) = Returned "main".
Proof.
  rewrite (HeadBranchName_unborn (H:=libgit2) Sample.unborn Sample.start
             Sample.HEAD_unborn Sample.idle GIT_ENOTFOUND
             (no_reference Sample.unborn)
             (snd (fail_code GIT_ENOTFOUND 4
                     "reference 'refs/heads/main' not found" Sample.idle))
             "main").
  - reflexivity.
  - vm_compute. reflexivity.
  - vm_compute. reflexivity.
  - discriminate.
  - reflexivity.
  - reflexivity.
Defined.

(** A directory that holds something that cannot be opened makes OpenRepo
    throw; the line has the directory as printed. *)
Lemma OpenRepo_outcomes_witness :
  let r := OpenRepo (H0:=Disk.sample) "/home/dev/broken" Sample.start in
  fst r = Thrown ∧
  logged (snd r) =
    [{| severity := ERROR;
        text := "git_repository_open_ext: '/home/dev/broken': could not open repository at '/home/dev/broken'" |}].
Proof.
  destruct (OpenRepo_outcomes (H0:=Disk.sample) "/home/dev/broken" Sample.start
              (-1) Disk.no_repository
              (snd (fail_code (-1) 6
                      "could not open repository at '/home/dev/broken'"
                      Sample.idle))) as (_ & _ & Hfail).
  - vm_compute. reflexivity.
  - cbv zeta. rewrite Hfail by discriminate. split; vm_compute; reflexivity.
Defined.

(** The sample repository has two stashes. *)
Lemma NumStashes_counts_witness :
  NumStashes (H0:=Disk.sample) Sample.repo Sample.start
  = (Returned 2, Sample.start).
Proof.
  rewrite (NumStashes_counts (H0:=Disk.sample) Sample.repo Sample.start
             [("WIP on main: fix", 9%N); ("On main: experiment", 10%N)]
             Sample.idle).
  - vm_compute. reflexivity.
  - reflexivity.
Defined.

(** With a stash list that cannot be read NumStashes throws. *)
Lemma NumStashes_failure_witness :
  fst (NumStashes (H0:=Disk.unreadable ∅) Sample.repo Sample.start) = Thrown.
Proof.
  rewrite (NumStashes_failure (H0:=Disk.unreadable ∅) Sample.repo Sample.start
             (-1) 0
             (snd (fail_code (-1) 6 "could not read the stash" Sample.idle))).
  - reflexivity.
  - vm_compute. reflexivity.
  - discriminate.
Defined.

(** [HEAD] and [main] are the same commit: nothing is ahead. *)
Lemma CountRange_zero_iff_witness :
  ∃ fuel, ∀ f w, (fuel ≤ f)%nat →
    fst (CountRange (H:=libgit2) f Sample.repo "main..HEAD" w)
      = Returned (Some 0).
Proof.
  destruct (CountRange_zero_iff Sample.repo "main..HEAD" "main" "HEAD" 5 5)
    as [fuel Hzero].
  - vm_compute. reflexivity.
  - vm_compute. reflexivity.
  - vm_compute. reflexivity.
  - vm_compute. reflexivity.
  - exists fuel. intros f w Hf. apply (Hzero f w Hf). constructor.
Defined.

End MoreSampleRuns.
